(** * Verification of [cypher_relationships.py]

    A shallow embedding of the relationship-direction corrector
    ([fix_cypher_relationship_directions] and its helpers) together with
    the theorems that settle the specification's claims about it.

    Conventions of the embedding.
    - A Python [str] is a [string]; a character is an 8-bit [ascii] read as
      the code point of the same number (0..255).
    - A Python exception is a value [Raise e] of the [result] type; every
      function that can raise lives in that error monad.
    - The [re] module is embedded as a small backtracking matcher over an
      abstract syntax of the constructs the source patterns use.
    - The relationship dictionaries are records; the keys that the source
      creates only on some paths ([is_correct], [schema_match]) are
      [option]s, [None] meaning the key is absent. *)

From Stdlib Require Import String Ascii List Arith Bool Lia.
From stdpp Require Import base option list strings gmap.
Import ListNotations.

Local Open Scope string_scope.
Local Open Scope list_scope.

(* [simpl] may unfold string concatenation on a constructor. *)
#[local] Arguments String.append !_ _ / : simpl nomatch.

(** ** Python exceptions and the error monad *)

Inductive exn : Type :=
| IndexError          (* tuple index out of range *)
| AttributeError      (* a str method called on [None] *)
| TypeError           (* [in] applied to [None] *)
| UnboundLocalError.  (* a local variable read before assignment *)

Inductive result (A : Type) : Type :=
| Ok (a : A)
| Raise (e : exn).
Arguments Ok {A} a.
Arguments Raise {A} e.

Definition rbind {A B} (x : result A) (f : A -> result B) : result B :=
  match x with
  | Ok a => f a
  | Raise e => Raise e
  end.

Notation "'do' x <- e1 ; e2" := (rbind e1 (fun x => e2))
  (at level 10, x name, e1 at level 100, e2 at level 200, only parsing).

(** [[f(x) for x in l]], left to right, stopping at the first exception. *)
Fixpoint rmapM {A B} (f : A -> result B) (l : list A) : result (list B) :=
  match l with
  | [] => Ok []
  | x :: l' =>
      do y <- f x ;
      do ys <- rmapM f l' ;
      Ok (y :: ys)
  end.

(** ** Python [str] methods used by the source *)

Module Py.

(** [c in chars] for a one-character string [c]. *)
Fixpoint mem (c : ascii) (chars : string) : bool :=
  match chars with
  | EmptyString => false
  | String d chars' => Ascii.eqb c d || mem c chars'
  end.

(** [s[n:]] *)
Fixpoint drop (n : nat) (s : string) : string :=
  match n, s with
  | O, _ => s
  | S n', String _ s' => drop n' s'
  | S _, EmptyString => EmptyString
  end.

(** [s[:n]] *)
Fixpoint take (n : nat) (s : string) : string :=
  match n, s with
  | S n', String c s' => String c (take n' s')
  | _, _ => EmptyString
  end.

(** [s.startswith(p)] *)
Definition startswith (s p : string) : bool := String.prefix p s.

(** [sub in s] *)
Fixpoint contains (sub s : string) : bool :=
  String.prefix sub s ||
  match s with
  | EmptyString => false
  | String _ s' => contains sub s'
  end.

(** [s.lstrip(chars)] *)
Fixpoint lstrip (chars s : string) : string :=
  match s with
  | EmptyString => EmptyString
  | String c s' => if mem c chars then lstrip chars s' else s
  end.

(** [s.rstrip(chars)] *)
Fixpoint rstrip (chars s : string) : string :=
  match s with
  | EmptyString => EmptyString
  | String c s' =>
      match rstrip chars s' with
      | EmptyString => if mem c chars then EmptyString else String c EmptyString
      | r => String c r
      end
  end.

(** [s.strip(chars)] *)
Definition strip (chars s : string) : string := rstrip chars (lstrip chars s).

(** [s.replace(old, new)] for a non-empty [old]: the non-overlapping
    copies of [old] are replaced from left to right.  [skip] counts the
    characters of a copy just replaced that are still to be passed. *)
Fixpoint replace_from (old new : string) (skip : nat) (s : string) : string :=
  match s with
  | EmptyString => EmptyString
  | String c s' =>
      match skip with
      | S k => replace_from old new k s'
      | O =>
          if String.prefix old s
          then new ++ replace_from old new (String.length old - 1) s'
          else String c (replace_from old new 0 s')
      end
  end.

(** [s.replace("", new)]: [new] before every character and at the end. *)
Fixpoint intersperse (new s : string) : string :=
  match s with
  | EmptyString => new
  | String c s' => new ++ String c (intersperse new s')
  end.

Definition replace (s old new : string) : string :=
  match old with
  | EmptyString => intersperse new s
  | _ => replace_from old new 0 s
  end.

(** [s.split(sep)] for a non-empty [sep]; [cur] is the field being read. *)
Fixpoint split_from (sep : string) (skip : nat) (cur s : string) : list string :=
  match s with
  | EmptyString => [cur]
  | String c s' =>
      match skip with
      | S k => split_from sep k cur s'
      | O =>
          if String.prefix sep s
          then cur :: split_from sep (String.length sep - 1) EmptyString s'
          else split_from sep 0 (cur ++ String c EmptyString) s'
      end
  end.

Definition split (s sep : string) : list string := split_from sep 0 EmptyString s.

(** The characters kept by a filter, as [re.sub] with a one-character
    class leaves them. *)
Fixpoint filter (p : ascii -> bool) (s : string) : string :=
  match s with
  | EmptyString => EmptyString
  | String c s' => if p c then String c (filter p s') else filter p s'
  end.

(** [x or default] on a list: an empty list is falsy. *)
Definition list_or {A} (l default : list A) : list A :=
  match l with
  | [] => default
  | _ => l
  end.

(** [next(iter(l))] on a list known to be non-empty. *)
Definition first (l : list string) : string :=
  match l with
  | x :: _ => x
  | [] => EmptyString
  end.

End Py.

(** ** The fragment of [re] used by the source *)

Module Re.

(** Character classes of the source patterns. *)
Definition code (c : ascii) : nat := nat_of_ascii c.

Definition between (lo hi : nat) (c : ascii) : bool :=
  Nat.leb lo (code c) && Nat.leb (code c) hi.

(** [[a-zA-Z0-9_]] *)
Definition word_char (c : ascii) : bool :=
  between 97 122 c || between 65 90 c || between 48 57 c || Py.mem c "_".

(** [[:!a-zA-Z0-9_`]] *)
Definition node_label_char (c : ascii) : bool :=
  Py.mem c ":!" || word_char c || Py.mem c "`".

(** [[:!a-zA-Z0-9_|`]] *)
Definition rel_label_char (c : ascii) : bool :=
  Py.mem c ":!" || word_char c || Py.mem c "|`".

(** [[.0-9]] *)
Definition hop_char (c : ascii) : bool :=
  Py.mem c "." || between 48 57 c.

(** [\s] on a [str] pattern: the code points below 256 for which
    [str.isspace()] holds. *)
Definition space_char (c : ascii) : bool :=
  between 9 13 c || between 28 32 c || Nat.eqb (code c) 133 || Nat.eqb (code c) 160.

(** [.] without [re.DOTALL]: anything but a newline. *)
Definition dot_char (c : ascii) : bool := negb (Nat.eqb (code c) 10).

Inductive regex : Type :=
| Eps                                   (* the empty pattern *)
| Chr (c : ascii)                       (* a literal character *)
| Cls (p : ascii -> bool)               (* a character class *)
| Cat (r1 r2 : regex)                   (* r1 r2 *)
| Opt (r : regex)                       (* r?  greedy *)
| Star (r : regex)                      (* r*  greedy *)
| LazyStar (r : regex)                  (* r*? *)
| Group (name : string) (r : regex)     (* (?P<name>r) *)
| Ahead (r : regex).                    (* (?=r) *)

Definition seq (rs : list regex) : regex := fold_right Cat Eps rs.

(** The named groups bound so far, most recent binding first. *)
Definition groups : Type := list (string * string).

Fixpoint lookup (name : string) (g : groups) : option string :=
  match g with
  | [] => None
  | (n, v) :: g' => if String.eqb name n then Some v else lookup name g'
  end.

Definition cont : Type := string -> groups -> option (string * groups).

Definition done : cont := fun s g => Some (s, g).

Definition orelse {A} (x y : option A) : option A :=
  match x with
  | Some _ => x
  | None => y
  end.

(** The rounds of a repetition whose body is matched by [step]: at most
    [n] of them, each of which must consume a character (the bodies of the
    repetitions in the source patterns always do, so that the length of the
    text bounds the number of rounds).  The greedy form tries one more
    round before it lets the rest of the pattern go on, the lazy form the
    other way round. *)
Fixpoint greedy_rounds (step : string -> groups -> cont -> option (string * groups))
  (k : cont) (n : nat) (s : string) (g : groups) : option (string * groups) :=
  match n with
  | O => k s g
  | S n' =>
      orelse
        (step s g (fun s' g' =>
           if Nat.ltb (String.length s') (String.length s)
           then greedy_rounds step k n' s' g' else None))
        (k s g)
  end.

Fixpoint lazy_rounds (step : string -> groups -> cont -> option (string * groups))
  (k : cont) (n : nat) (s : string) (g : groups) : option (string * groups) :=
  match n with
  | O => k s g
  | S n' =>
      orelse
        (k s g)
        (step s g (fun s' g' =>
           if Nat.ltb (String.length s') (String.length s)
           then lazy_rounds step k n' s' g' else None))
  end.

(** [rmatch r s g k]: match [r] at the head of [s], then continue with [k]
    on what is left; alternatives are tried in the order of [re]'s
    backtracking search and the first success is returned. *)
Fixpoint rmatch (r : regex) (s : string) (g : groups) (k : cont)
  : option (string * groups) :=
  match r with
  | Eps => k s g
  | Chr c =>
      match s with
      | String d s' => if Ascii.eqb c d then k s' g else None
      | EmptyString => None
      end
  | Cls p =>
      match s with
      | String d s' => if p d then k s' g else None
      | EmptyString => None
      end
  | Cat r1 r2 => rmatch r1 s g (fun s' g' => rmatch r2 s' g' k)
  | Opt r1 => orelse (rmatch r1 s g k) (k s g)
  | Star r1 => greedy_rounds (rmatch r1) k (String.length s) s g
  | LazyStar r1 => lazy_rounds (rmatch r1) k (String.length s) s g
  | Group name r1 =>
      rmatch r1 s g (fun s' g' =>
        k s' ((name, Py.take (String.length s - String.length s') s) :: g'))
  | Ahead r1 =>
      match rmatch r1 s g done with
      | Some (_, g') => k s g'
      | None => None
      end
  end.

(** A match object: where the match starts, how many characters it spans
    and what its named groups hold. *)
Record Match : Type := mkMatch {
  m_start : nat;
  m_len : nat;
  m_groups : groups
}.

(** [m.group(name)]: [None] when the group took no part in the match. *)
Definition group (m : Match) (name : string) : option string :=
  lookup name (m_groups m).

(** [re.finditer(r, text)] scanning from position [pos] of the text, [s]
    being the text from there on.  After a match of [n > 0] characters the
    scan resumes behind it ([skip] characters are passed over); after an
    empty match it resumes one character further.  The source has two kinds
    of patterns: a node pattern, which never matches the empty string, and
    a lookahead, which matches nothing else; so no second, non-empty match
    is ever to be tried where an empty one was found. *)
Fixpoint finditer_from (r : regex) (pos skip : nat) (s : string) : list Match :=
  match skip with
  | S k =>
      match s with
      | EmptyString => []
      | String _ s' => finditer_from r (S pos) k s'
      end
  | O =>
      match rmatch r s [] done with
      | Some (rest, g) =>
          let n := String.length s - String.length rest in
          mkMatch pos n g ::
          match s with
          | EmptyString => []
          | String _ s' => finditer_from r (S pos) (n - 1) s'
          end
      | None =>
          match s with
          | EmptyString => []
          | String _ s' => finditer_from r (S pos) 0 s'
          end
      end
  end.

Definition finditer (r : regex) (text : string) : list Match :=
  finditer_from r 0 0 text.

End Re.

(** ** The program *)

Import Re.

(** [PATTERN_CONFIG]: the three sub-patterns, read under [re.VERBOSE]
    (white space and comments of the pattern text dropped). *)
Record pattern_config : Type := mkConfig {
  node1_pattern : regex;
  arrow_pattern : regex;
  node2_pattern : regex
}.

Definition default_node1_pattern : regex :=
  Group "node1" (seq [
    Chr "(";
    Group "node1_var_name" (Star (Cls word_char));
    Group "node1_labels" (Star (Cls node_label_char));
    Star (Cls space_char);
    Star (Group "node1_props" (seq [Chr "{"; LazyStar (Cls dot_char); Chr "}"]));
    Chr ")"
  ]).

Definition default_arrow_pattern : regex :=
  Group "rel" (seq [
    Opt (Group "rel_left_arrow" (Chr "<"));
    Chr "-";
    Opt (Chr "[");
    Group "rel_var_name" (Star (Cls word_char));
    Group "rel_labels" (Star (Cls rel_label_char));
    Star (Cls space_char);
    Star (Group "rel_props" (seq [Chr "{"; LazyStar (Cls dot_char); Chr "}"]));
    Group "rel_hops" (seq [Opt (Chr "*"); Star (Cls hop_char)]);
    Opt (Chr "]");
    Chr "-";
    Opt (Group "rel_right_arrow" (Chr ">"))
  ]).

Definition default_node2_pattern : regex :=
  Group "node2" (seq [
    Chr "(";
    Group "node2_var_name" (Star (Cls word_char));
    Group "node2_labels" (Star (Cls node_label_char));
    Star (Cls space_char);
    Star (Group "node2_props" (seq [Chr "{"; LazyStar (Cls dot_char); Chr "}"]));
    Chr ")"
  ]).

Definition PATTERN_CONFIG : pattern_config :=
  mkConfig default_node1_pattern default_arrow_pattern default_node2_pattern.

(** A schema entry is the tuple of the fields of one group, of whatever
    length the text gives it. *)
Definition schema : Type := list (list string).

Record Node : Type := mkNode {
  var_name : option string;
  label1 : string
}.

Definition triple : Type := (string * string * string)%type.

Record Relationship : Type := mkRel {
  object : Match;
  node1 : Node;
  node2 : Node;
  tup : triple;
  direction : option string;
  node_labels_same : bool;
  is_variable_length : bool;
  is_multi_label : bool;
  multi_labels : list string;
  is_negated_label : bool;
  is_correct : option bool;
  schema_match : option bool
}.

Definition set_tup (t : triple) (r : Relationship) : Relationship :=
  mkRel (object r) (node1 r) (node2 r) t (direction r) (node_labels_same r)
        (is_variable_length r) (is_multi_label r) (multi_labels r)
        (is_negated_label r) (is_correct r) (schema_match r).

Definition set_is_correct (b : bool) (r : Relationship) : Relationship :=
  mkRel (object r) (node1 r) (node2 r) (tup r) (direction r) (node_labels_same r)
        (is_variable_length r) (is_multi_label r) (multi_labels r)
        (is_negated_label r) (Some b) (schema_match r).

Definition set_schema_match (b : bool) (r : Relationship) : Relationship :=
  mkRel (object r) (node1 r) (node2 r) (tup r) (direction r) (node_labels_same r)
        (is_variable_length r) (is_multi_label r) (multi_labels r)
        (is_negated_label r) (is_correct r) (Some b).

Definition set_multi_labels (l : list string) (r : Relationship) : Relationship :=
  mkRel (object r) (node1 r) (node2 r) (tup r) (direction r) (node_labels_same r)
        (is_variable_length r) true l
        (is_negated_label r) (is_correct r) (schema_match r).

(** The two assignments that close every branch of the matcher. *)
Definition mark (correct : option bool) (matched : bool) (r : Relationship)
  : Relationship :=
  set_schema_match matched
    (match correct with
     | Some b => set_is_correct b r
     | None => r
     end).

(** A method call on the value of [m.group(name)]. *)
Definition group_str (m : Match) (name : string) : result string :=
  match group m name with
  | Some s => Ok s
  | None => Raise AttributeError
  end.

(** [bool(s)] for a string, and for a value that may be [None]. *)
Definition truthy (s : string) : bool :=
  match s with
  | EmptyString => false
  | _ => true
  end.

Definition truthy_opt (o : option string) : bool :=
  match o with
  | Some s => truthy s
  | None => false
  end.

(** [a or b] *)
Definition py_or (a b : option string) : option string :=
  if truthy_opt a then a else b.

(** [o == s] for a value that may be [None]. *)
Definition is_str (o : option string) (s : string) : bool :=
  match o with
  | Some t => String.eqb t s
  | None => false
  end.

(** [next(iter(labels.lstrip(":").replace("`", "").split(":") or [""]))] *)
Definition first_label (labels : string) : string :=
  Py.first
    (Py.list_or
       (Py.split (Py.replace (Py.lstrip ":" labels) "`" EmptyString) ":")
       [EmptyString]).

Definition process_schema (schema_text : string) : schema :=
  map (fun item => Py.split item ",")
      (Py.split
         (Py.rstrip ")" (Py.lstrip "(" (Py.replace schema_text " " EmptyString)))
         "),(").

(** [item[i]] *)
Definition field (i : nat) (item : list string) : result string :=
  match nth_error item i with
  | Some x => Ok x
  | None => Raise IndexError
  end.

(** [[item[i] for item in schema_lst]] *)
Definition column (i : nat) (schema_lst : schema) : result (list string) :=
  rmapM (field i) schema_lst.

(** The dictionary comprehension of [detect_node_labels]: later matches
    overwrite earlier ones with the same key. *)
Fixpoint node_label_entries (nodes : list Match)
  (acc : gmap (option string) string) : result (gmap (option string) string) :=
  match nodes with
  | [] => Ok acc
  | node :: rest =>
      if truthy_opt (group node "node1_labels")
      then
        do labels <- group_str node "node1_labels" ;
        node_label_entries rest
          (<[ group node "node1_var_name" := first_label labels ]> acc)
      else node_label_entries rest acc
  end.

Definition node_label_map (cypher_text : string) (cfg : pattern_config)
  : result (gmap (option string) string) :=
  node_label_entries (finditer (node1_pattern cfg) cypher_text) ∅.

(** [node_label_map.get(var_name, "")] *)
Definition get_label (m : gmap (option string) string) (v : option string) : string :=
  match m !! v with
  | Some l => l
  | None => EmptyString
  end.

Definition detect_node_labels (obj : Match) (cypher_text : string)
  (cfg : pattern_config) : result (Node * Node) :=
  do labels1 <- group_str obj "node1_labels" ;
  let n1 := mkNode (group obj "node1_var_name") (first_label labels1) in
  do labels2 <- group_str obj "node2_labels" ;
  let n2 := mkNode (group obj "node2_var_name") (first_label labels2) in
  do map <- node_label_map cypher_text cfg ;
  let n1 :=
    if String.eqb (label1 n1) EmptyString
    then mkNode (var_name n1) (get_label map (var_name n1)) else n1 in
  let n2 :=
    if String.eqb (label1 n2) EmptyString
    then mkNode (var_name n2) (get_label map (var_name n2)) else n2 in
  Ok (n1, n2).

(** [re.sub(r"[\s`:]*", "", label)]: every character of the class goes. *)
Definition clean_label (label : string) : string :=
  Py.filter (fun c => negb (space_char c || Py.mem c "`:")) label.

Definition detect_relationship_characteristics (obj : Match) (n1 n2 : Node)
  : result Relationship :=
  do labels <- group_str obj "rel_labels" ;
  let tup :=
    (Py.strip "`" (label1 n1),
     Py.replace (Py.lstrip ":" labels) "`" EmptyString,
     Py.strip "`" (label1 n2)) in
  let direction := py_or (group obj "rel_left_arrow") (group obj "rel_right_arrow") in
  let node_labels_same := String.eqb (label1 n1) (label1 n2) in
  do is_variable_length <-
    (if is_str (group obj "rel_hops") "*" then Ok true
     else
       match group obj "rel_hops" with
       | None => Raise TypeError
       | Some hops => Ok (Py.contains "*" hops && Py.contains ".." hops)
       end) ;
  let is_multi_label := Py.contains "|" labels in
  let multi_labels := map clean_label (Py.split labels "|") in
  let is_negated_label := Py.startswith (Py.lstrip ":" labels) "!" in
  Ok (mkRel obj n1 n2 tup direction node_labels_same is_variable_length
            is_multi_label multi_labels is_negated_label None None).

(** [[item[1] for item in schema_lst if item[1] != negated_label]] *)
Fixpoint other_types (negated_label : string) (schema_lst : schema)
  : result (list string) :=
  match schema_lst with
  | [] => Ok []
  | item :: rest =>
      do t <- field 1 item ;
      do ts <- other_types negated_label rest ;
      Ok (if String.eqb t negated_label then ts else t :: ts)
  end.

Definition transform_negated_to_multi_label (rel : Relationship)
  (schema_lst : schema) : result Relationship :=
  let negated_label := Py.lstrip "!" (snd (fst (tup rel))) in
  do labels <- other_types negated_label schema_lst ;
  Ok (set_multi_labels labels rel).

Definition relationship_pattern (cfg : pattern_config) : regex :=
  Ahead (Group "whole_relationship"
           (seq [node1_pattern cfg; arrow_pattern cfg; node2_pattern cfg])).

Definition detect_relationship (cypher_text : string) (schema_lst : schema)
  (cfg : pattern_config) (obj : Match) : result Relationship :=
  do nodes <- detect_node_labels obj cypher_text cfg ;
  do rel <- detect_relationship_characteristics obj (fst nodes) (snd nodes) ;
  if is_negated_label rel
  then transform_negated_to_multi_label rel schema_lst
  else Ok rel.

Definition detect_relationships (cypher_text : string) (schema_lst : schema)
  (cfg : pattern_config) : result (list Relationship) :=
  rmapM (detect_relationship cypher_text schema_lst cfg)
        (finditer (relationship_pattern cfg) cypher_text).

(** [x in l] *)
Definition elem {A} `{EqDecision A} (x : A) (l : list A) : bool :=
  bool_decide (x ∈ l).

(** A three-tuple as a schema entry, and [t[::-1]]. *)
Definition as_item (t : triple) : list string :=
  let '(a, b, c) := t in [a; b; c].

Definition reversed (t : triple) : triple :=
  let '(a, b, c) := t in (c, b, a).

Definition make_left_to_right (rel : Relationship) : triple :=
  if is_str (direction rel) "<" then reversed (tup rel) else tup rel.

Definition is_unfixable (rel : Relationship) : bool :=
  negb (truthy_opt (direction rel))
  || String.eqb (label1 (node1 rel)) (label1 (node2 rel))
  || is_variable_length rel.

Definition is_complete (rel : Relationship) : bool :=
  let '(a, b, c) := tup rel in
  negb (String.eqb a EmptyString || String.eqb b EmptyString
        || String.eqb c EmptyString).

Definition find_complete_tup_in_schema (rel : Relationship) (schema_lst : schema)
  : Relationship :=
  if elem (as_item (make_left_to_right rel)) schema_lst
  then mark (Some true) true rel
  else if elem (as_item (reversed (make_left_to_right rel))) schema_lst
  then mark (Some false) true rel
  else mark None false rel.

(** One two-column branch of [find_partial_tup_in_schema]: the pair is
    looked up in [zip] of columns [i], [j], and failing that in [zip] of
    columns [i'], [j']; the second pair of columns is only built when the
    first lookup finds nothing. *)
Definition lookup_pair (x : string * string) (i j i' j' : nat)
  (rel : Relationship) (schema_lst : schema) : result Relationship :=
  do ci <- column i schema_lst ;
  do cj <- column j schema_lst ;
  if elem x (zip ci cj) then Ok (mark (Some true) true rel)
  else
    do ci' <- column i' schema_lst ;
    do cj' <- column j' schema_lst ;
    if elem x (zip ci' cj') then Ok (mark (Some false) true rel)
    else Ok (mark None false rel).

(** One one-column branch: column [i], and failing that column [i']. *)
Definition lookup_one (x : string) (i i' : nat)
  (rel : Relationship) (schema_lst : schema) : result Relationship :=
  do ci <- column i schema_lst ;
  if elem x ci then Ok (mark (Some true) true rel)
  else
    do ci' <- column i' schema_lst ;
    if elem x ci' then Ok (mark (Some false) true rel)
    else Ok (mark None false rel).

Definition find_partial_tup_in_schema (rel : Relationship) (schema_lst : schema)
  : result Relationship :=
  let '(a, b, c) := make_left_to_right rel in
  match truthy a, truthy b, truthy c with
  | true, true, false => lookup_pair (a, b) 0 1 2 1 rel schema_lst
  | false, true, true => lookup_pair (b, c) 1 2 1 0 rel schema_lst
  | true, false, true => lookup_pair (a, c) 0 2 2 0 rel schema_lst
  | true, false, false => lookup_one a 0 2 rel schema_lst
  | false, false, true => lookup_one c 2 0 rel schema_lst
  | false, true, false =>
      do c1 <- column 1 schema_lst ;
      if elem b c1 then Ok (mark (Some true) true rel)
      else Ok (mark None false rel)
  | _, _, _ => Ok (mark (Some true) true rel)
  end.

Definition find_single_label_relationship_in_schema (rel : Relationship)
  (schema_lst : schema) : result Relationship :=
  if is_unfixable rel then Ok (mark (Some true) true rel)
  else if is_complete rel then Ok (find_complete_tup_in_schema rel schema_lst)
  else find_partial_tup_in_schema rel schema_lst.

(** The loop of [find_relationship_in_schema] over the labels still to be
    tried; the relationship carries the keys set by earlier rounds. *)
Fixpoint try_labels (labels : list string) (rel : Relationship)
  (schema_lst : schema) : result Relationship :=
  match labels with
  | [] => Ok rel
  | label :: rest =>
      let rel := set_tup (label1 (node1 rel), label, label1 (node2 rel)) rel in
      do rel <- find_single_label_relationship_in_schema rel schema_lst ;
      if bool_decide (is_correct rel = Some true) then Ok rel
      else try_labels rest rel schema_lst
  end.

Definition find_relationship_in_schema (rel : Relationship) (schema_lst : schema)
  : result Relationship :=
  try_labels (multi_labels rel) rel schema_lst.

Definition switch_direction (cypher_text : string) (rel : Relationship)
  : result string :=
  let old_relationship := group (object rel) "whole_relationship" in
  do new_relationship <-
    (if is_str (direction rel) ">" then
       do old <- group_str (object rel) "whole_relationship" ;
       Ok (Py.replace (Py.replace old "->" "-") ")-" ")<-")
     else if is_str (direction rel) "<" then
       do old <- group_str (object rel) "whole_relationship" ;
       Ok (Py.replace (Py.replace old "<-" "-") "-(" "->(")
     else Raise UnboundLocalError) ;
  match old_relationship with
  | Some old => Ok (Py.replace cypher_text old new_relationship)
  | None => Raise TypeError
  end.

(** The [for] loop of [fix_cypher_relationship_directions]. *)
Fixpoint fix_loop (cypher_text : string) (relationships : list Relationship)
  (schema_lst : schema) : result string :=
  match relationships with
  | [] => Ok cypher_text
  | rel :: rest =>
      do rel <- find_relationship_in_schema rel schema_lst ;
      if bool_decide (schema_match rel = Some false) then Ok EmptyString
      else if bool_decide (is_correct rel = Some false) then
        do cypher_text <- switch_direction cypher_text rel ;
        fix_loop cypher_text rest schema_lst
      else fix_loop cypher_text rest schema_lst
  end.

Definition fix_cypher_relationship_directions (cypher_text schema_text : string)
  (cfg : pattern_config) : result string :=
  let schema_lst := process_schema schema_text in
  do relationships <- detect_relationships cypher_text schema_lst cfg ;
  fix_loop cypher_text relationships schema_lst.

(** The operation the specification calls [correct]: the default patterns. *)
Definition correct (cypher_text schema_text : string) : result string :=
  fix_cypher_relationship_directions cypher_text schema_text PATTERN_CONFIG.


(** ** Declarative reading of the patterns

    [matches r s g s' g']: the pattern [r] can match at the head of [s],
    leaving [s'] and turning the groups [g] into [g'].  The backtracking
    matcher returns one of these matches; the facts about the groups of a
    match object are proved on this relation. *)
Inductive matches : regex -> string -> groups -> string -> groups -> Prop :=
| M_Eps s g : matches Eps s g s g
| M_Chr c s g : matches (Chr c) (String c s) g s g
| M_Cls p c s g : p c = true -> matches (Cls p) (String c s) g s g
| M_Cat r1 r2 s g s1 g1 s2 g2 :
    matches r1 s g s1 g1 -> matches r2 s1 g1 s2 g2 ->
    matches (Cat r1 r2) s g s2 g2
| M_Opt_some r s g s' g' : matches r s g s' g' -> matches (Opt r) s g s' g'
| M_Opt_none r s g : matches (Opt r) s g s g
| M_Star_stop r s g : matches (Star r) s g s g
| M_Star_round r s g s1 g1 s2 g2 :
    matches r s g s1 g1 -> matches (Star r) s1 g1 s2 g2 ->
    matches (Star r) s g s2 g2
| M_Lazy_stop r s g : matches (LazyStar r) s g s g
| M_Lazy_round r s g s1 g1 s2 g2 :
    matches r s g s1 g1 -> matches (LazyStar r) s1 g1 s2 g2 ->
    matches (LazyStar r) s g s2 g2
| M_Group name r s g s' g' :
    matches r s g s' g' ->
    matches (Group name r) s g s'
            ((name, Py.take (String.length s - String.length s') s) :: g')
| M_Ahead r s g s' g' : matches r s g s' g' -> matches (Ahead r) s g s g'.

(** The groups that take part in every match of a pattern. *)
Fixpoint binds (r : regex) : list string :=
  match r with
  | Cat r1 r2 => binds r1 ++ binds r2
  | Group name r1 => name :: binds r1
  | Ahead r1 => binds r1
  | _ => []
  end.

(** Every group called [name] inside [r] can only capture a text that
    satisfies [Q]. *)
Fixpoint captures (name : string) (Q : string -> Prop) (r : regex) : Prop :=
  match r with
  | Cat r1 r2 => captures name Q r1 /\ captures name Q r2
  | Opt r1 | Star r1 | LazyStar r1 | Ahead r1 => captures name Q r1
  | Group n r1 =>
      (n = name ->
       forall s g s' g', matches r1 s g s' g' ->
         Q (Py.take (String.length s - String.length s') s))
      /\ captures name Q r1
  | _ => True
  end.

(** What the default relationship pattern guarantees of a match object
    found in [text]: the groups outside every [?] and [*] took part, the
    whole match is the text at the start position, and an arrowhead group
    holds its arrowhead. *)
Record scanned (text : string) (obj : Match) : Prop := mkScanned {
  scanned_whole :
    exists w rest, group obj "whole_relationship" = Some w
                   /\ Py.drop (m_start obj) text = (w ++ rest)%string;
  scanned_node1_labels : is_Some (group obj "node1_labels");
  scanned_node2_labels : is_Some (group obj "node2_labels");
  scanned_rel_labels : is_Some (group obj "rel_labels");
  scanned_rel_hops : is_Some (group obj "rel_hops");
  scanned_left : forall v, group obj "rel_left_arrow" = Some v -> v = "<";
  scanned_right : forall v, group obj "rel_right_arrow" = Some v -> v = ">"
}.

(** ** Vocabulary of the statements *)

(** The three ways a branch of the matcher can close. *)
Inductive outcome : Type :=
| Correct      (* is_correct = True,  schema_match = True *)
| NeedsFlip    (* is_correct = False, schema_match = True *)
| NoMatch.     (* schema_match = False, is_correct left as it was *)

#[global] Instance outcome_eq_dec : EqDecision outcome.
Proof. solve_decision. Defined.

Definition apply_outcome (o : outcome) (rel : Relationship) : Relationship :=
  match o with
  | Correct => mark (Some true) true rel
  | NeedsFlip => mark (Some false) true rel
  | NoMatch => mark None false rel
  end.

(** The matcher closes with [o] on the tuple the relationship carries. *)
Definition single_outcome (rel : Relationship) (schema_lst : schema)
  (o : outcome) : Prop :=
  find_single_label_relationship_in_schema rel schema_lst
  = Ok (apply_outcome o rel).

(** The candidate [label] of a relationship yields [o]. *)
Definition candidate_outcome (rel : Relationship) (schema_lst : schema)
  (label : string) (o : outcome) : Prop :=
  single_outcome
    (set_tup (label1 (node1 rel), label, label1 (node2 rel)) rel) schema_lst o.

(** The fields the matcher never writes. *)
Definition same_frame (r r' : Relationship) : Prop :=
  object r = object r' /\ node1 r = node1 r' /\ node2 r = node2 r'
  /\ direction r = direction r'
  /\ is_variable_length r = is_variable_length r'.

(** A relationship as [detect_relationships] hands it over: scanned by the
    default pattern, direction read off the arrowheads, no verdict yet. *)
Record detected (text : string) (rel : Relationship) : Prop := mkDetected {
  detected_scanned : scanned text (object rel);
  detected_direction :
    direction rel
    = py_or (group (object rel) "rel_left_arrow")
            (group (object rel) "rel_right_arrow");
  detected_is_correct : is_correct rel = None;
  detected_schema_match : schema_match rel = None
}.

(** A result that is either a value or the index error of a schema entry
    with fewer than three fields. *)
Definition index_only {A} (schema_lst : schema) (x : result A) : Prop :=
  match x with
  | Ok _ => True
  | Raise e =>
      e = IndexError /\ Exists (fun item => length item < 3) schema_lst
  end.

(** The relationship after one round of the label loop that closed with
    [o] on the candidate [label]. *)
Definition next_round (o : outcome) (label : string) (rel : Relationship)
  : Relationship :=
  apply_outcome o (set_tup (label1 (node1 rel), label, label1 (node2 rel)) rel).

(** A label the query leaves unknown is compatible with every label. *)
Definition compatible (known x : string) : Prop :=
  known = EmptyString \/ known = x.

(** The schema has a triple of the type of [t] between labels compatible
    with the source and the target of [t]. *)
Definition fits (schema_lst : schema) (t : triple) : Prop :=
  let '(a, ty, c) := t in
  exists s o, In [s; ty; o] schema_lst /\ compatible a s /\ compatible c o.

(** The tuple of a relationship for the candidate [label], read from
    source to target. *)
Definition oriented (rel : Relationship) (label : string) : triple :=
  make_left_to_right
    (set_tup (label1 (node1 rel), label, label1 (node2 rel)) rel).

(** A schema in which every entry is a triple with a relationship type. *)
Definition triples (schema_lst : schema) : Prop :=
  Forall (fun item => exists s t o, item = [s; t; o] /\ t <> EmptyString)
         schema_lst.

(** The type a negated relationship excludes: the label expression of the
    tuple without its leading exclamation marks. *)
Definition excluded_type (rel : Relationship) : string :=
  Py.lstrip "!" (snd (fst (tup rel))).

(** The first and the last character of a string, and strings without a
    hyphen. *)
Definition first_char (s : string) : option ascii :=
  match s with
  | EmptyString => None
  | String c _ => Some c
  end.

Fixpoint last_char (s : string) : option ascii :=
  match s with
  | EmptyString => None
  | String c EmptyString => Some c
  | String _ s' => last_char s'
  end.

Fixpoint has_char (x : ascii) (s : string) : bool :=
  match s with
  | EmptyString => false
  | String c s' => Ascii.eqb c x || has_char x s'
  end.

Definition hyphen_free (s : string) : Prop := has_char "-" s = false.

(** A two-character pattern of [str.replace]. *)
Definition pair_of (x y : ascii) : string := String x (String y EmptyString).

(** The candidates the label loop goes past: none of them yields
    [Correct]. *)
Definition passed_over (schema_lst : schema) (rel : Relationship)
  (labels : list string) : Prop :=
  Forall (fun l => candidate_outcome rel schema_lst l NeedsFlip
                   \/ candidate_outcome rel schema_lst l NoMatch) labels.

(** A schema whose entries all have the three fields the lookups read. *)
Definition full (schema_lst : schema) : Prop :=
  Forall (fun item => 3 <= length item) schema_lst.

(** ** Vocabulary of the further properties *)

(** A schema field as the documented form writes it: no space, comma or
    parenthesis. *)
Fixpoint plain (s : string) : bool :=
  match s with
  | EmptyString => true
  | String c s' => negb (Py.mem c " ,()") && plain s'
  end.

Definition plain_triple (t : triple) : Prop :=
  let '(a, b, c) := t in
  plain a = true /\ plain b = true /\ plain c = true.

(** The documented form of a schema, as in the docstring:
    [(Person, KNOWS, Person), (Person, WORKS_AT, Organization)]. *)
Definition render_triple (t : triple) : string :=
  let '(a, b, c) := t in
  ("(" ++ a ++ ", " ++ b ++ ", " ++ c ++ ")")%string.

Fixpoint render_schema (ts : list triple) : string :=
  match ts with
  | [] => EmptyString
  | [t] => render_triple t
  | t :: ts' => (render_triple t ++ ", " ++ render_schema ts')%string
  end.

(** The same without the spaces and without the outer parentheses, as
    [process_schema] has it before it splits. *)
Definition bare_triple (t : triple) : string :=
  let '(a, b, c) := t in (a ++ "," ++ b ++ "," ++ c)%string.

Fixpoint bare_schema (ts : list triple) : string :=
  match ts with
  | [] => EmptyString
  | [t] => bare_triple t
  | t :: ts' => (bare_triple t ++ "),(" ++ bare_schema ts')%string
  end.

(** All the group names of a pattern. *)
Fixpoint names (r : regex) : list string :=
  match r with
  | Cat r1 r2 => names r1 ++ names r2
  | Opt r1 | Star r1 | LazyStar r1 | Ahead r1 => names r1
  | Group name r1 => name :: names r1
  | _ => []
  end.

(** The pattern matches the text at position [pos]. *)
Definition matches_at (r : regex) (text : string) (pos : nat) : bool :=
  match rmatch r (Py.drop pos text) [] done with
  | Some _ => true
  | None => false
  end.


(** Two schemas with the same entries, whatever their order and number. *)
Definition same_entries (sch sch' : schema) : Prop :=
  forall item, In item sch <-> In item sch'.



(** * Properties of the embedding *)

(** ** Strings *)

Lemma append_assoc (a b c : string) : ((a ++ b) ++ c = a ++ (b ++ c))%string.
Proof. induction a as [ | x a IH]; simpl; [reflexivity | now rewrite IH]. Qed.

Lemma append_nil_r (a : string) : (a ++ EmptyString)%string = a.
Proof. induction a as [ | x a IH]; simpl; [reflexivity | now rewrite IH]. Qed.

Lemma length_append (a b : string) :
  String.length (a ++ b) = String.length a + String.length b.
Proof. induction a as [ | x a IH]; simpl; [reflexivity | now rewrite IH]. Qed.

(** ** [str.replace] *)

Lemma prefix_append (old rest : string) : String.prefix old (old ++ rest) = true.
Proof.
  induction old as [ | c old IH]; simpl; [now destruct rest | ].
  destruct (ascii_dec c c); [exact IH | congruence].
Qed.

Lemma replace_from_skip old new (w rest : string) :
  Py.replace_from old new (String.length w) (w ++ rest)
  = Py.replace_from old new 0 rest.
Proof. induction w as [ | c w IH]; simpl; [reflexivity | exact IH]. Qed.

Lemma replace_from_hit old new (rest : string) :
  old <> EmptyString ->
  Py.replace_from old new 0 (old ++ rest)
  = (new ++ Py.replace_from old new 0 rest)%string.
Proof.
  intros Hne. destruct old as [ | c old']; [congruence | ].
  change (String c old' ++ rest)%string with (String c (old' ++ rest)).
  cbn [Py.replace_from].
  change (String c (old' ++ rest)) with (String c old' ++ rest)%string.
  rewrite prefix_append.
  replace (String.length (String c old') - 1) with (String.length old')
    by (simpl; lia).
  now rewrite replace_from_skip.
Qed.

Lemma replace_from_pass old new (rest : string) :
  forall pre : string,
    (forall i, i < String.length pre ->
               String.prefix old (Py.drop i (pre ++ rest)) = false) ->
    Py.replace_from old new 0 (pre ++ rest)
    = (pre ++ Py.replace_from old new 0 rest)%string.
Proof.
  induction pre as [ | c pre IH]; intros H; [reflexivity | ].
  change (String c pre ++ rest)%string with (String c (pre ++ rest)).
  cbn [Py.replace_from].
  assert (H0 : String.prefix old (String c (pre ++ rest)) = false)
    by (apply (H 0); simpl; lia).
  rewrite H0. rewrite IH; [reflexivity | ].
  intros i Hi. apply (H (S i)). simpl. lia.
Qed.

(** The first copy of [old] is replaced, what stands before it is kept,
    and what stands behind it is searched for further copies. *)
Lemma replace_first_copy (pre old post new : string) :
  old <> EmptyString ->
  (forall i, i < String.length pre ->
             String.prefix old (Py.drop i (pre ++ old ++ post)) = false) ->
  Py.replace (pre ++ old ++ post) old new
  = (pre ++ new ++ Py.replace post old new)%string.
Proof.
  intros Hne H. unfold Py.replace. destruct old as [ | c old']; [congruence | ].
  rewrite replace_from_pass by exact H.
  now rewrite replace_from_hit.
Qed.

(** A text without a copy of [old] is left as it is. *)
Lemma contains_drop old :
  forall (s : string) i,
    Py.contains old s = false -> String.prefix old (Py.drop i s) = false.
Proof.
  induction s as [ | c s IH]; intros i H.
  - cbn [Py.contains] in H. apply orb_false_iff in H as [H _].
    now destruct i.
  - cbn [Py.contains] in H. apply orb_false_iff in H as [H0 H1].
    destruct i as [ | i]; [exact H0 | ]. cbn [Py.drop]. now apply IH.
Qed.

Lemma replace_absent (s old new : string) :
  Py.contains old s = false -> Py.replace s old new = s.
Proof.
  intros H. unfold Py.replace. destruct old as [ | d old'].
  - destruct s; discriminate.
  - rewrite <- (append_nil_r s) at 1.
    rewrite replace_from_pass.
    + simpl. apply append_nil_r.
    + intros i _. rewrite append_nil_r. now apply contains_drop.
Qed.

(** *** Two-character patterns *)

Lemma first_char_append (s t : string) :
  first_char (s ++ t) = match first_char s with
                        | Some c => Some c
                        | None => first_char t
                        end.
Proof. destruct s; reflexivity. Qed.

Section two_character_pattern.

(** The pattern [x y] and what replaces it. *)
Variables (x y : ascii) (new : string).

Lemma prefix_pair c (t : string) :
  String.prefix (pair_of x y) (String c t)
  = Ascii.eqb x c && bool_decide (first_char t = Some y).
Proof.
  unfold pair_of. simpl.
  destruct (ascii_dec x c) as [-> | Hne].
  - rewrite Ascii.eqb_refl. simpl. destruct t as [ | d t]; simpl.
    + reflexivity.
    + destruct (ascii_dec y d) as [-> | Hne].
      * rewrite bool_decide_eq_true_2 by reflexivity. now destruct t.
      * rewrite bool_decide_eq_false_2; [reflexivity | congruence].
  - apply Ascii.eqb_neq in Hne. now rewrite Hne.
Qed.

(** A character that does not start a copy is kept. *)
Lemma replace_pair_keep c (t : string) :
  c <> x \/ first_char t <> Some y ->
  Py.replace_from (pair_of x y) new 0 (String c t)
  = String c (Py.replace_from (pair_of x y) new 0 t).
Proof.
  intros H. cbn [Py.replace_from]. rewrite prefix_pair.
  destruct H as [H | H].
  - assert (E : Ascii.eqb x c = false) by (apply Ascii.eqb_neq; congruence).
    now rewrite E.
  - rewrite (bool_decide_eq_false_2 _ H). now rewrite andb_false_r.
Qed.

Lemma replace_pair_hit (t : string) :
  Py.replace_from (pair_of x y) new 0 (pair_of x y ++ t)
  = (new ++ Py.replace_from (pair_of x y) new 0 t)%string.
Proof. apply replace_from_hit. discriminate. Qed.

(** A stretch without the first character of the pattern. *)
Lemma replace_pair_no_first (t : string) :
  forall s : string,
    has_char x s = false ->
    Py.replace_from (pair_of x y) new 0 (s ++ t)
    = (s ++ Py.replace_from (pair_of x y) new 0 t)%string.
Proof.
  induction s as [ | c s IH]; intros H; [reflexivity | ].
  simpl in H. apply orb_false_iff in H. destruct H as [Hc Hs].
  change (String c s ++ t)%string with (String c (s ++ t)).
  rewrite replace_pair_keep; [now rewrite IH | ].
  left. now apply Ascii.eqb_neq.
Qed.

(** A stretch without the second character of the pattern, not followed
    by it if it ends with the first. *)
Lemma replace_pair_no_second (t : string) :
  forall s : string,
    has_char y s = false ->
    (last_char s = Some x -> first_char t <> Some y) ->
    Py.replace_from (pair_of x y) new 0 (s ++ t)
    = (s ++ Py.replace_from (pair_of x y) new 0 t)%string.
Proof.
  induction s as [ | c s IH]; intros H Hlast; [reflexivity | ].
  simpl in H. apply orb_false_iff in H. destruct H as [Hc Hs].
  change (String c s ++ t)%string with (String c (s ++ t)).
  rewrite replace_pair_keep.
  - rewrite IH; [reflexivity | exact Hs | ].
    intros E. apply Hlast. simpl. destruct s; [discriminate | exact E].
  - destruct s as [ | d s'].
    + destruct (ascii_dec c x) as [-> | Hne]; [right | left; exact Hne].
      apply Hlast. reflexivity.
    + right. simpl. simpl in Hs. apply orb_false_iff in Hs.
      destruct Hs as [Hd _]. apply Ascii.eqb_neq in Hd. congruence.
Qed.

Lemma replace_pair_end (s : string) :
  has_char x s = false \/ has_char y s = false ->
  Py.replace_from (pair_of x y) new 0 s = s.
Proof.
  intros [H | H].
  - rewrite <- (append_nil_r s) at 1. rewrite replace_pair_no_first by exact H.
    simpl. apply append_nil_r.
  - rewrite <- (append_nil_r s) at 1.
    rewrite replace_pair_no_second; [simpl; apply append_nil_r | exact H | ].
    discriminate.
Qed.

End two_character_pattern.

(** *** Turning an arrow round *)

Lemma first_char_body (body rest : string) (c d : ascii) :
  first_char body <> Some c -> d <> c ->
  first_char (body ++ String d rest) <> Some c.
Proof.
  intros Hb Hd. rewrite first_char_append.
  destruct (first_char body); [exact Hb | simpl; congruence].
Qed.

(** [old.replace("->", "-").replace(")-", ")<-")] on a right arrow whose
    nodes and body have no hyphen of their own. *)
Lemma turn_right_arrow (n1 body n2 : string) :
  hyphen_free n1 -> hyphen_free body -> hyphen_free n2 ->
  first_char body <> Some ">"%char -> last_char body <> Some ")"%char ->
  Py.replace (Py.replace (n1 ++ ")-" ++ body ++ "->" ++ n2) "->" "-") ")-" ")<-"
  = (n1 ++ ")<-" ++ body ++ "-" ++ n2)%string.
Proof.
  intros H1 Hb H2 Hfirst Hlast.
  change (Py.replace (n1 ++ ")-" ++ body ++ "->" ++ n2) "->" "-")
    with (Py.replace_from (pair_of "-" ">") "-" 0
            (n1 ++ String ")" (String "-" (body ++ (pair_of "-" ">" ++ n2))))).
  rewrite replace_pair_no_first by exact H1.
  rewrite replace_pair_keep by (left; discriminate).
  rewrite replace_pair_keep
    by (right; apply first_char_body; [exact Hfirst | discriminate]).
  rewrite replace_pair_no_first by exact Hb.
  rewrite replace_pair_hit.
  rewrite replace_pair_end by (left; exact H2).
  change (Py.replace ?s ")-" ")<-")
    with (Py.replace_from (pair_of ")" "-") ")<-" 0 s).
  change (n1 ++ String ")" (String "-" (body ++ "-" ++ n2)))%string
    with (n1 ++ (pair_of ")" "-" ++ (body ++ String "-" n2)))%string.
  rewrite replace_pair_no_second; [ | exact H1 | discriminate].
  rewrite replace_pair_hit.
  rewrite replace_pair_no_second; [ | exact Hb | intros E; contradiction].
  rewrite replace_pair_keep by (left; discriminate).
  rewrite replace_pair_end by (right; exact H2).
  reflexivity.
Qed.

(** [old.replace("<-", "-").replace("-(", "->(")] on a left arrow whose
    nodes and body have no hyphen of their own. *)
Lemma turn_left_arrow (n1 body n2 : string) :
  hyphen_free n1 -> hyphen_free body -> hyphen_free n2 ->
  first_char body <> Some "("%char -> last_char body <> Some "<"%char ->
  Py.replace (Py.replace (n1 ++ "<-" ++ body ++ "-(" ++ n2) "<-" "-") "-(" "->("
  = (n1 ++ "-" ++ body ++ "->(" ++ n2)%string.
Proof.
  intros H1 Hb H2 Hfirst Hlast.
  change (Py.replace (n1 ++ "<-" ++ body ++ "-(" ++ n2) "<-" "-")
    with (Py.replace_from (pair_of "<" "-") "-" 0
            (n1 ++ (pair_of "<" "-" ++ (body ++ String "-" (String "(" n2))))).
  rewrite replace_pair_no_second; [ | exact H1 | discriminate].
  rewrite replace_pair_hit.
  rewrite replace_pair_no_second; [ | exact Hb | intros E; contradiction].
  rewrite replace_pair_keep by (left; discriminate).
  rewrite replace_pair_keep by (left; discriminate).
  rewrite replace_pair_end by (right; exact H2).
  change (Py.replace ?s "-(" "->(")
    with (Py.replace_from (pair_of "-" "(") "->(" 0 s).
  change (n1 ++ "-" ++ body ++ String "-" (String "(" n2))%string
    with (n1 ++ String "-" (body ++ (pair_of "-" "(" ++ n2)))%string.
  rewrite replace_pair_no_first by exact H1.
  rewrite replace_pair_keep
    by (right; apply first_char_body; [exact Hfirst | discriminate]).
  rewrite replace_pair_no_first by exact Hb.
  rewrite replace_pair_hit.
  rewrite replace_pair_end by (left; exact H2).
  reflexivity.
Qed.

(** *** A pattern that occurs once *)





(** ** The matcher returns declarative matches *)

Lemma orelse_Some {A} (x y : option A) (a : A) :
  orelse x y = Some a -> x = Some a \/ (x = None /\ y = Some a).
Proof. destruct x; simpl; intros H; [left | right]; auto. Qed.

Lemma rmatch_sound r :
  forall s g k res,
    rmatch r s g k = Some res ->
    exists s' g', matches r s g s' g' /\ k s' g' = Some res.
Proof.
  induction r as [ | c | p | r1 IH1 r2 IH2 | r IH | r IH | r IH | name r IH | r IH ];
    intros s g k res H; simpl in H.
  - exists s, g. split; [constructor | exact H].
  - destruct s as [ | d s']; [discriminate | ].
    destruct (Ascii.eqb c d) eqn:E; [ | discriminate].
    apply Ascii.eqb_eq in E. subst d.
    exists s', g. split; [constructor | exact H].
  - destruct s as [ | d s']; [discriminate | ].
    destruct (p d) eqn:E; [ | discriminate].
    exists s', g. split; [constructor; exact E | exact H].
  - apply IH1 in H. destruct H as (s1 & g1 & Hm1 & H).
    apply IH2 in H. destruct H as (s2 & g2 & Hm2 & H).
    exists s2, g2. split; [econstructor; eassumption | exact H].
  - apply orelse_Some in H. destruct H as [H | [_ H]].
    + apply IH in H. destruct H as (s1 & g1 & Hm & H).
      exists s1, g1. split; [constructor; exact Hm | exact H].
    + exists s, g. split; [apply M_Opt_none | exact H].
  - revert H. generalize (String.length s). intros n. revert s g.
    induction n as [ | n IHn]; intros s g H; simpl in H.
    + exists s, g. split; [apply M_Star_stop | exact H].
    + apply orelse_Some in H. destruct H as [H | [_ H]].
      * apply IH in H. destruct H as (s1 & g1 & Hm & H).
        destruct (Nat.ltb _ _); [ | discriminate].
        apply IHn in H. destruct H as (s2 & g2 & Hm2 & H).
        exists s2, g2. split; [eapply M_Star_round; eassumption | exact H].
      * exists s, g. split; [apply M_Star_stop | exact H].
  - revert H. generalize (String.length s). intros n. revert s g.
    induction n as [ | n IHn]; intros s g H; simpl in H.
    + exists s, g. split; [apply M_Lazy_stop | exact H].
    + apply orelse_Some in H. destruct H as [H | [_ H]].
      * exists s, g. split; [apply M_Lazy_stop | exact H].
      * apply IH in H. destruct H as (s1 & g1 & Hm & H).
        destruct (Nat.ltb _ _); [ | discriminate].
        apply IHn in H. destruct H as (s2 & g2 & Hm2 & H).
        exists s2, g2. split; [eapply M_Lazy_round; eassumption | exact H].
  - apply IH in H. destruct H as (s1 & g1 & Hm & H).
    eexists _, _. split; [constructor; exact Hm | exact H].
  - destruct (rmatch r s g done) as [[rest g1] | ] eqn:E; [ | discriminate].
    apply IH in E. destruct E as (s1 & g1' & Hm & E).
    unfold done in E. inversion E; subst.
    exists s, g1. split; [econstructor; exact Hm | exact H].
Qed.

(** What is left after a match is a suffix of what was there. *)
Lemma matches_suffix r s g s' g' :
  matches r s g s' g' -> exists w, s = (w ++ s')%string.
Proof.
  induction 1 as
    [ s g | c s g | p c s g Hp
    | r1 r2 s g s1 g1 s2 g2 _ [w1 E1] _ [w2 E2]
    | r s g s' g' _ IH | r s g | r s g
    | r s g s1 g1 s2 g2 _ [w1 E1] _ [w2 E2]
    | r s g
    | r s g s1 g1 s2 g2 _ [w1 E1] _ [w2 E2]
    | name r s g s' g' _ IH | r s g s' g' _ IH ].
  - exists EmptyString. reflexivity.
  - exists (String c EmptyString). reflexivity.
  - exists (String c EmptyString). reflexivity.
  - exists (w1 ++ w2)%string. subst. now rewrite append_assoc.
  - exact IH.
  - exists EmptyString. reflexivity.
  - exists EmptyString. reflexivity.
  - exists (w1 ++ w2)%string. subst. now rewrite append_assoc.
  - exists EmptyString. reflexivity.
  - exists (w1 ++ w2)%string. subst. now rewrite append_assoc.
  - exact IH.
  - exists EmptyString. reflexivity.
Qed.

Lemma take_app_length (w s : string) :
  Py.take (String.length (w ++ s) - String.length s) (w ++ s) = w.
Proof.
  rewrite length_append.
  replace (String.length w + String.length s - String.length s)
    with (String.length w) by lia.
  induction w as [ | c w IH]; simpl.
  - destruct s; reflexivity.
  - now rewrite IH.
Qed.

(** A group that took part keeps a value, and the groups of [binds] take
    part in every match. *)
Lemma matches_binds r s g s' g' :
  matches r s g s' g' ->
  forall name, is_Some (lookup name g) \/ In name (binds r) ->
               is_Some (lookup name g').
Proof.
  induction 1; intros n Hn; simpl in *;
    try (destruct Hn as [Hn | []]; exact Hn).
  - apply IHmatches2. destruct Hn as [Hn | Hn]; [left; apply IHmatches1; auto | ].
    apply in_app_or in Hn. destruct Hn; [left; apply IHmatches1 | right]; auto.
  - destruct Hn as [Hn | []]. apply IHmatches. auto.
  - destruct Hn as [Hn | []]. apply IHmatches2. left. apply IHmatches1. auto.
  - destruct Hn as [Hn | []]. apply IHmatches2. left. apply IHmatches1. auto.
  - destruct (String.eqb n name) eqn:E; [eexists; reflexivity | ].
    apply IHmatches. destruct Hn as [Hn | [Hn | Hn]]; auto.
    subst. rewrite String.eqb_refl in E. discriminate.
  - apply IHmatches. exact Hn.
Qed.

(** A property of everything the groups called [name] can capture holds
    of the value of that group after the match. *)
Lemma matches_captures name Q r s g s' g' :
  matches r s g s' g' ->
  captures name Q r ->
  (forall v, lookup name g = Some v -> Q v) ->
  forall v, lookup name g' = Some v -> Q v.
Proof.
  induction 1; intros Hc Hg v Hv; simpl in *; eauto.
  - destruct Hc as [Hc1 Hc2]. eapply IHmatches2; eauto.
  - destruct Hc as [Hc1 Hc2].
    destruct (String.eqb_spec name name0) as [E | E].
    + subst name0. inversion Hv; subst. eapply Hc1; eauto.
    + eapply IHmatches; eauto.
Qed.

(** ** Match objects of the scanner *)

Lemma finditer_from_match r :
  forall s pos skip m,
    In m (finditer_from r pos skip s) ->
    pos <= m_start m /\
    exists rest,
      rmatch r (Py.drop (m_start m - pos) s) [] done = Some (rest, m_groups m).
Proof.
  induction s as [ | c s IH]; intros pos skip m H.
  - destruct skip; simpl in H; [ | destruct H].
    destruct (rmatch r EmptyString [] done) as [[rest g] | ] eqn:E;
      simpl in H; [ | destruct H].
    destruct H as [H | []]. subst m. simpl. split; [lia | ].
    rewrite Nat.sub_diag. exists rest. exact E.
  - assert (Hrec : forall k, In m (finditer_from r (S pos) k s) ->
              pos <= m_start m /\
              exists rest,
                rmatch r (Py.drop (m_start m - pos) (String c s)) [] done
                = Some (rest, m_groups m)).
    { intros k Hk. apply IH in Hk. destruct Hk as [Hle [rest Hk]].
      split; [lia | ]. exists rest.
      replace (m_start m - pos) with (S (m_start m - S pos)) by lia.
      exact Hk. }
    destruct skip; simpl in H.
    + destruct (rmatch r (String c s) [] done) as [[rest g] | ] eqn:E.
      * destruct H as [H | H]; [ | eapply Hrec; exact H].
        subst m. simpl. split; [lia | ]. rewrite Nat.sub_diag.
        exists rest. exact E.
      * eapply Hrec; exact H.
    + eapply Hrec; exact H.
Qed.

Lemma finditer_match r text m :
  In m (finditer r text) ->
  exists rest s' ,
    matches r (Py.drop (m_start m) text) [] s' (m_groups m) /\ s' = rest.
Proof.
  intros H. apply finditer_from_match in H. destruct H as [_ [rest H]].
  rewrite Nat.sub_0_r in H. apply rmatch_sound in H.
  destruct H as (s' & g' & Hm & Hd). unfold done in Hd. inversion Hd; subst.
  exists rest, rest. split; [exact Hm | reflexivity].
Qed.

Lemma arrowhead_capture (c : ascii) s g s' g' :
  matches (Chr c) s g s' g' ->
  Py.take (String.length s - String.length s') s = String c EmptyString.
Proof.
  intros H. inversion H; subst. simpl String.length.
  replace (S (String.length s') - String.length s') with 1 by lia.
  reflexivity.
Qed.

Lemma matches_ahead_group name r s g s' g' :
  matches (Ahead (Group name r)) s g s' g' ->
  exists w rest, lookup name g' = Some w /\ s = (w ++ rest)%string.
Proof.
  intros H. inversion H; subst.
  match goal with
  | Hg : matches (Group _ _) _ _ _ _ |- _ => inversion Hg; subst
  end.
  match goal with
  | Hr : matches r _ _ _ _ |- _ => destruct (matches_suffix _ _ _ _ _ Hr) as [w Hw]
  end.
  eexists w, _. simpl. rewrite String.eqb_refl. split; [ | exact Hw].
  rewrite Hw. now rewrite take_app_length.
Qed.

Lemma relationship_pattern_scanned text obj :
  In obj (finditer (relationship_pattern PATTERN_CONFIG) text) ->
  scanned text obj.
Proof.
  intros H. apply finditer_match in H. destruct H as (rest & s' & Hm & _).
  assert (Hb : forall name,
             In name (binds (relationship_pattern PATTERN_CONFIG)) ->
             is_Some (group obj name)).
  { intros name Hn. unfold group. eapply matches_binds; [exact Hm | auto]. }
  split.
  - unfold group. eapply matches_ahead_group. exact Hm.
  - apply Hb. simpl. tauto.
  - apply Hb. simpl. tauto.
  - apply Hb. simpl. tauto.
  - apply Hb. simpl. tauto.
  - unfold group. eapply (matches_captures "rel_left_arrow"); [exact Hm | | ].
    + simpl. repeat split; try discriminate.
      intros _ s g s1 g1 Hc. eapply arrowhead_capture. exact Hc.
    + simpl. discriminate.
  - unfold group. eapply (matches_captures "rel_right_arrow"); [exact Hm | | ].
    + simpl. repeat split; try discriminate.
      intros _ s g s1 g1 Hc. eapply arrowhead_capture. exact Hc.
    + simpl. discriminate.
Qed.

(** ** The error monad *)

Lemma rbind_Ok {A B} (x : result A) (f : A -> result B) (b : B) :
  rbind x f = Ok b -> exists a, x = Ok a /\ f a = Ok b.
Proof. destruct x; simpl; intros H; [eauto | discriminate]. Qed.

Lemma index_only_bind {A B} sch (x : result A) (f : A -> result B) :
  index_only sch x ->
  (forall a, x = Ok a -> index_only sch (f a)) ->
  index_only sch (rbind x f).
Proof. destruct x; simpl; auto. Qed.

Lemma rmapM_Ok {A B} (f : A -> result B) :
  forall l ys, rmapM f l = Ok ys -> Forall2 (fun x y => f x = Ok y) l ys.
Proof.
  induction l as [ | x l IH]; intros ys H; simpl in H.
  - inversion H. constructor.
  - apply rbind_Ok in H. destruct H as (y & Hy & H).
    apply rbind_Ok in H. destruct H as (ys' & Hys & H).
    inversion H; subst. constructor; auto.
Qed.

Lemma index_only_rmapM {A B} sch (f : A -> result B) (l : list A) :
  (forall x, In x l -> index_only sch (f x)) ->
  index_only sch (rmapM f l).
Proof.
  induction l as [ | x l IH]; intros H; simpl; [exact I | ].
  apply index_only_bind; [apply H; now left | intros y _].
  apply index_only_bind; [apply IH; intros; apply H; now right | intros ys _].
  exact I.
Qed.

Lemma index_only_field sch i item :
  i < 3 -> In item sch -> index_only sch (field i item).
Proof.
  intros Hi Hin. unfold field. destruct (nth_error item i) eqn:E; simpl; [exact I | ].
  split; [reflexivity | ]. apply List.Exists_exists. exists item. split; [exact Hin | ].
  apply nth_error_None in E. lia.
Qed.

Lemma index_only_column sch i : i < 3 -> index_only sch (column i sch).
Proof.
  intros Hi. unfold column. apply index_only_rmapM.
  intros item Hin. now apply index_only_field.
Qed.

(** ** The matcher on one tuple *)

Lemma lookup_pair_outcome x i j i' j' rel rel' sch :
  (exists e, lookup_pair x i j i' j' rel sch = Raise e
             /\ lookup_pair x i j i' j' rel' sch = Raise e)
  \/ (exists o, lookup_pair x i j i' j' rel sch = Ok (apply_outcome o rel)
                /\ lookup_pair x i j i' j' rel' sch = Ok (apply_outcome o rel')).
Proof.
  unfold lookup_pair.
  destruct (column i sch) as [ci | e]; simpl; [ | left; eauto].
  destruct (column j sch) as [cj | e]; simpl; [ | left; eauto].
  destruct (elem x (zip ci cj)); [right; exists Correct; auto | ].
  destruct (column i' sch) as [ci' | e]; simpl; [ | left; eauto].
  destruct (column j' sch) as [cj' | e]; simpl; [ | left; eauto].
  destruct (elem x (zip ci' cj'));
    right; [exists NeedsFlip | exists NoMatch]; auto.
Qed.

Lemma lookup_one_outcome x i i' rel rel' sch :
  (exists e, lookup_one x i i' rel sch = Raise e
             /\ lookup_one x i i' rel' sch = Raise e)
  \/ (exists o, lookup_one x i i' rel sch = Ok (apply_outcome o rel)
                /\ lookup_one x i i' rel' sch = Ok (apply_outcome o rel')).
Proof.
  unfold lookup_one.
  destruct (column i sch) as [ci | e]; simpl; [ | left; eauto].
  destruct (elem x ci); [right; exists Correct; auto | ].
  destruct (column i' sch) as [ci' | e]; simpl; [ | left; eauto].
  destruct (elem x ci');
    right; [exists NeedsFlip | exists NoMatch]; auto.
Qed.

(** The branch taken depends on the frame and on the tuple only, not on
    the verdict keys an earlier round may have left. *)
Lemma find_single_outcome rel rel' sch :
  same_frame rel rel' -> tup rel = tup rel' ->
  (exists e, find_single_label_relationship_in_schema rel sch = Raise e
             /\ find_single_label_relationship_in_schema rel' sch = Raise e)
  \/ (exists o,
        find_single_label_relationship_in_schema rel sch = Ok (apply_outcome o rel)
        /\ find_single_label_relationship_in_schema rel' sch
           = Ok (apply_outcome o rel')).
Proof.
  intros (Ho & Hn1 & Hn2 & Hd & Hv) Ht.
  unfold find_single_label_relationship_in_schema, is_unfixable, is_complete,
    find_complete_tup_in_schema, find_partial_tup_in_schema, make_left_to_right.
  rewrite <- Hn1, <- Hn2, <- Hd, <- Hv, <- Ht.
  destruct (_ || _ || is_variable_length rel); [right; exists Correct; auto | ].
  destruct (tup rel) as [[a b] c].
  destruct (negb _).
  - destruct (elem _ sch); [right; exists Correct; auto | ].
    destruct (elem _ sch); right; [exists NeedsFlip | exists NoMatch]; auto.
  - destruct (is_str (direction rel) "<"); simpl;
      destruct (truthy _), (truthy _), (truthy _);
      try apply lookup_pair_outcome; try apply lookup_one_outcome;
      try (right; exists Correct; split; reflexivity);
      (destruct (column 1 sch) as [c1 | e]; simpl; [ | left; eauto];
       destruct (elem _ c1); right; [exists Correct | exists NoMatch]; auto).
Qed.

Lemma apply_outcome_frame o rel : same_frame rel (apply_outcome o rel).
Proof. destruct o; repeat split. Qed.

Lemma apply_outcome_tup o rel : tup (apply_outcome o rel) = tup rel.
Proof. destruct o; reflexivity. Qed.

Lemma apply_outcome_labels o rel :
  multi_labels (apply_outcome o rel) = multi_labels rel.
Proof. destruct o; reflexivity. Qed.

Lemma apply_outcome_schema_match o rel :
  schema_match (apply_outcome o rel)
  = Some (match o with NoMatch => false | _ => true end).
Proof. destruct o; reflexivity. Qed.

Lemma apply_outcome_is_correct o rel :
  is_correct (apply_outcome o rel)
  = match o with
    | Correct => Some true
    | NeedsFlip => Some false
    | NoMatch => is_correct rel
    end.
Proof. destruct o; reflexivity. Qed.

Lemma apply_outcome_inj o o' rel rel' :
  apply_outcome o rel = apply_outcome o' rel' -> o = o'.
Proof.
  intros H.
  assert (Hs := f_equal schema_match H). assert (Hi := f_equal is_correct H).
  rewrite !apply_outcome_schema_match in Hs.
  rewrite !apply_outcome_is_correct in Hi.
  destruct o, o'; try reflexivity; discriminate.
Qed.

Lemma same_frame_refl rel : same_frame rel rel.
Proof. repeat split. Qed.

Lemma same_frame_sym r r' : same_frame r r' -> same_frame r' r.
Proof. intros (? & ? & ? & ? & ?). repeat split; auto. Qed.

Lemma same_frame_trans r1 r2 r3 :
  same_frame r1 r2 -> same_frame r2 r3 -> same_frame r1 r3.
Proof.
  intros (? & ? & ? & ? & ?) (? & ? & ? & ? & ?).
  repeat split; congruence.
Qed.

Lemma same_frame_set_tup t rel : same_frame rel (set_tup t rel).
Proof. repeat split. Qed.

Lemma same_frame_unfixable r r' :
  same_frame r r' -> is_unfixable r = is_unfixable r'.
Proof.
  intros (_ & Hn1 & Hn2 & Hd & Hv). unfold is_unfixable. congruence.
Qed.

Lemma find_single_Ok rel sch r' :
  find_single_label_relationship_in_schema rel sch = Ok r' ->
  exists o, r' = apply_outcome o rel.
Proof.
  intros H.
  destruct (find_single_outcome rel rel sch (same_frame_refl rel) eq_refl)
    as [(e & He & _) | (o & Ho & _)]; [congruence | ].
  exists o. congruence.
Qed.

Lemma find_single_unfixable rel sch :
  is_unfixable rel = true ->
  find_single_label_relationship_in_schema rel sch
  = Ok (apply_outcome Correct rel).
Proof.
  intros H. unfold find_single_label_relationship_in_schema. now rewrite H.
Qed.

Lemma index_only_find_single rel sch :
  index_only sch (find_single_label_relationship_in_schema rel sch).
Proof.
  unfold find_single_label_relationship_in_schema.
  destruct (is_unfixable rel); [exact I | ].
  destruct (is_complete rel); [exact I | ].
  unfold find_partial_tup_in_schema, lookup_pair, lookup_one.
  destruct (make_left_to_right rel) as [[a b] c].
  destruct (truthy a), (truthy b), (truthy c); try exact I;
    repeat first
      [ exact I
      | apply index_only_bind; [apply index_only_column; lia | intros ? _]
      | match goal with |- context [if ?b then _ else _] => destruct b end ].
Qed.

(** The outcome a candidate yields is the same from every state of the
    verdict keys. *)
Lemma single_outcome_frame rel rel' sch o :
  same_frame rel rel' -> tup rel = tup rel' ->
  single_outcome rel sch o -> single_outcome rel' sch o.
Proof.
  intros Hf Ht H. unfold single_outcome in *.
  destruct (find_single_outcome rel rel' sch Hf Ht)
    as [(e & He & _) | (o' & Ho & Ho')]; [congruence | ].
  rewrite Ho in H. inversion H as [H1].
  apply apply_outcome_inj in H1. now subst o'.
Qed.

Lemma candidate_outcome_frame rel rel' sch label o :
  same_frame rel rel' ->
  candidate_outcome rel sch label o -> candidate_outcome rel' sch label o.
Proof.
  intros Hf H. unfold candidate_outcome in *.
  destruct Hf as (Ho & Hn1 & Hn2 & Hd & Hv).
  eapply single_outcome_frame; [ | | exact H].
  - repeat split; assumption.
  - simpl. now rewrite Hn1, Hn2.
Qed.

Lemma candidate_outcome_unique rel sch label o o' :
  candidate_outcome rel sch label o -> candidate_outcome rel sch label o' ->
  o = o'.
Proof.
  unfold candidate_outcome, single_outcome. intros H H'.
  rewrite H in H'. inversion H' as [H1].
  now apply apply_outcome_inj in H1.
Qed.

(** ** The loop over the candidate labels *)

Lemma next_round_frame o label rel : same_frame rel (next_round o label rel).
Proof. destruct o; repeat split. Qed.

Lemma next_round_is_correct o label rel :
  is_correct (next_round o label rel)
  = match o with
    | Correct => Some true
    | NeedsFlip => Some false
    | NoMatch => is_correct rel
    end.
Proof. destruct o; reflexivity. Qed.

Lemma next_round_schema_match o label rel :
  schema_match (next_round o label rel)
  = Some (match o with NoMatch => false | _ => true end).
Proof. destruct o; reflexivity. Qed.

Lemma next_round_not_correct o label rel :
  o <> Correct -> is_correct rel <> Some true ->
  is_correct (next_round o label rel) <> Some true.
Proof. intros Ho Hc. rewrite next_round_is_correct. destruct o; congruence. Qed.

Lemma is_unfixable_set_tup t rel : is_unfixable (set_tup t rel) = is_unfixable rel.
Proof. reflexivity. Qed.

Create HintDb frame.
#[local] Hint Resolve same_frame_refl same_frame_set_tup apply_outcome_frame
  next_round_frame next_round_not_correct : frame.

(** What a candidate yields for a relationship, it yields after any
    number of rounds of the loop. *)
Ltac carry_over :=
  cbv beta in *;
  match goal with
  | H : candidate_outcome ?r ?s ?l ?o
    |- candidate_outcome (next_round _ _ ?r) ?s ?l ?o =>
      eapply candidate_outcome_frame; [apply next_round_frame | exact H]
  | H : candidate_outcome (next_round ?o' ?l' ?r) ?s ?l ?o
    |- candidate_outcome ?r ?s ?l ?o =>
      eapply candidate_outcome_frame;
      [apply same_frame_sym; apply (next_round_frame o' l' r) | exact H]
  end.

Section candidate_loop.

Variable sch : schema.

Lemma try_labels_step label rest rel o :
  candidate_outcome rel sch label o ->
  try_labels (label :: rest) rel sch
  = if bool_decide (is_correct (next_round o label rel) = Some true)
    then Ok (next_round o label rel)
    else try_labels rest (next_round o label rel) sch.
Proof.
  intros H. unfold candidate_outcome, single_outcome in H.
  simpl. rewrite H. reflexivity.
Qed.

Lemma try_labels_step_correct label rest rel :
  candidate_outcome rel sch label Correct ->
  try_labels (label :: rest) rel sch = Ok (next_round Correct label rel).
Proof. intros H. now rewrite (try_labels_step _ _ _ _ H). Qed.

Lemma try_labels_step_other label rest rel o :
  candidate_outcome rel sch label o -> o <> Correct ->
  is_correct rel <> Some true ->
  try_labels (label :: rest) rel sch
  = try_labels rest (next_round o label rel) sch.
Proof.
  intros H Ho Hc. rewrite (try_labels_step _ _ _ _ H).
  rewrite bool_decide_eq_false_2; [reflexivity | ].
  now apply next_round_not_correct.
Qed.

Lemma index_only_try_labels :
  forall labels rel, index_only sch (try_labels labels rel sch).
Proof.
  induction labels as [ | l labels IH]; intros rel; simpl; [exact I | ].
  apply index_only_bind; [apply index_only_find_single | intros r _].
  destruct (bool_decide _); [exact I | apply IH].
Qed.

Lemma try_labels_frame :
  forall labels rel v,
    try_labels labels rel sch = Ok v ->
    same_frame rel v /\ multi_labels v = multi_labels rel.
Proof.
  induction labels as [ | l labels IH]; intros rel v H; simpl in H.
  - inversion H; subst. auto with frame.
  - apply rbind_Ok in H. destruct H as (r & Hr & H).
    apply find_single_Ok in Hr. destruct Hr as [o ->].
    fold (next_round o l rel) in H.
    assert (Hm : multi_labels (next_round o l rel) = multi_labels rel)
      by (destruct o; reflexivity).
    destruct (bool_decide _).
    + inversion H; subst. auto with frame.
    + apply IH in H. destruct H as [Hf' Hm'].
      split; [eapply same_frame_trans; eauto with frame | congruence].
Qed.

Lemma passed_over_cons rel l labels :
  passed_over sch rel (l :: labels) ->
  (exists o, o <> Correct /\ candidate_outcome rel sch l o)
  /\ forall o' l', passed_over sch (next_round o' l' rel) labels.
Proof.
  intros H. inversion H as [ | x xs Hl Hrest]; subst. split.
  - destruct Hl; [exists NeedsFlip | exists NoMatch]; split; congruence.
  - intros o' l'. eapply Forall_impl; [exact Hrest | ].
    intros x [Hx | Hx]; [left | right]; carry_over.
Qed.

(** The search stops at the first candidate that yields [Correct]; what
    comes after it in the list plays no part. *)
Lemma try_labels_first_correct c l2 :
  forall l1 rel,
    is_correct rel <> Some true ->
    passed_over sch rel l1 ->
    candidate_outcome rel sch c Correct ->
    exists v,
      try_labels (l1 ++ c :: l2) rel sch = Ok v
      /\ try_labels (l1 ++ [c]) rel sch = Ok v
      /\ is_correct v = Some true /\ schema_match v = Some true.
Proof.
  induction l1 as [ | l l1 IH]; intros rel Hc Hl1 Hcor; simpl app.
  - exists (next_round Correct c rel).
    rewrite !(try_labels_step_correct _ _ _ Hcor). auto.
  - destruct (passed_over_cons _ _ _ Hl1) as [(o & Ho & Hcand) Hrest].
    rewrite !(try_labels_step_other _ _ _ _ Hcand Ho Hc).
    apply IH; [auto with frame | apply Hrest | carry_over].
Qed.

(** No candidate yields [Correct] and the last one yields [NeedsFlip]. *)
Lemma try_labels_last_needs_flip c :
  forall l1 rel,
    is_correct rel <> Some true ->
    passed_over sch rel l1 ->
    candidate_outcome rel sch c NeedsFlip ->
    exists v,
      try_labels (l1 ++ [c]) rel sch = Ok v
      /\ is_correct v = Some false /\ schema_match v = Some true.
Proof.
  induction l1 as [ | l l1 IH]; intros rel Hc Hl1 Hflip; simpl app.
  - rewrite (try_labels_step_other _ _ _ _ Hflip); [ | discriminate | exact Hc].
    simpl. eexists. split; [reflexivity | ]. split; reflexivity.
  - destruct (passed_over_cons _ _ _ Hl1) as [(o & Ho & Hcand) Hrest].
    rewrite (try_labels_step_other _ _ _ _ Hcand Ho Hc).
    apply IH; [auto with frame | apply Hrest | carry_over].
Qed.

(** A non-empty list whose candidates all yield [NoMatch]. *)
Lemma try_labels_all_no_match :
  forall labels l rel,
    is_correct rel <> Some true ->
    Forall (fun x => candidate_outcome rel sch x NoMatch) (l :: labels) ->
    exists v,
      try_labels (l :: labels) rel sch = Ok v
      /\ schema_match v = Some false /\ is_correct v = is_correct rel.
Proof.
  induction labels as [ | l' labels IH]; intros l rel Hc Hall;
    inversion Hall as [ | x xs Hl Hrest]; subst;
    (rewrite (try_labels_step_other _ _ _ _ Hl); [ | discriminate | exact Hc]).
  - simpl. eexists. split; [reflexivity | ]. split; reflexivity.
  - destruct (IH l' (next_round NoMatch l rel)) as (v & Hv & Hs & Hi).
    + exact Hc.
    + eapply Forall_impl; [exact Hrest | ]. intros x Hx. carry_over.
    + exists v. auto.
Qed.

(** A final [schema_match = True] comes from a candidate that matched. *)
Lemma try_labels_matched :
  forall labels rel v,
    schema_match rel <> Some true ->
    try_labels labels rel sch = Ok v ->
    schema_match v = Some true ->
    exists l o, In l labels /\ o <> NoMatch /\ candidate_outcome rel sch l o.
Proof.
  induction labels as [ | l labels IH]; intros rel v Hs H Hv; simpl in H.
  - inversion H; subst. contradiction.
  - apply rbind_Ok in H. destruct H as (r & Hr & H).
    destruct (find_single_Ok _ _ _ Hr) as [o ->].
    fold (next_round o l rel) in H.
    assert (Hcand : candidate_outcome rel sch l o) by exact Hr.
    destruct o; try (exists l; eexists; split; [now left | ];
                     split; [ | exact Hcand]; discriminate).
    destruct (bool_decide _).
    + assert (E : v = next_round NoMatch l rel) by congruence. subst v.
      rewrite next_round_schema_match in Hv. discriminate.
    + apply IH in H; [ | rewrite next_round_schema_match; discriminate | exact Hv].
      destruct H as (l' & o' & Hin & Ho' & Hc').
      exists l', o'. split; [now right | ]. split; [exact Ho' | carry_over].
Qed.

(** When every candidate yields an outcome and one of them [Correct], the
    verdict is correct. *)
Lemma try_labels_some_correct :
  forall labels rel,
    is_correct rel <> Some true ->
    Forall (fun l => exists o, candidate_outcome rel sch l o) labels ->
    Exists (fun l => candidate_outcome rel sch l Correct) labels ->
    exists v,
      try_labels labels rel sch = Ok v
      /\ is_correct v = Some true /\ schema_match v = Some true.
Proof.
  induction labels as [ | l labels IH]; intros rel Hc Hall Hex.
  - inversion Hex.
  - inversion Hall as [ | x xs [o Ho] Hrest]; subst.
    destruct (decide (o = Correct)) as [-> | Hno].
    + rewrite (try_labels_step_correct _ _ _ Ho). eexists.
      split; [reflexivity | ]. split; reflexivity.
    + rewrite (try_labels_step_other _ _ _ _ Ho Hno Hc).
      apply IH.
      * auto with frame.
      * eapply Forall_impl; [exact Hrest | ]. intros x [o' Hx]. exists o'.
        carry_over.
      * inversion Hex as [x xs Hx | x xs Hx]; subst.
        -- now pose proof (candidate_outcome_unique _ _ _ _ _ Ho Hx).
        -- eapply Exists_impl; [exact Hx | ]. intros x Hx'. carry_over.
Qed.

(** An unfixable relationship is marked correct by the first round. *)
Lemma try_labels_unfixable l labels rel :
  is_unfixable rel = true ->
  try_labels (l :: labels) rel sch = Ok (next_round Correct l rel).
Proof.
  intros H. apply try_labels_step_correct.
  unfold candidate_outcome, single_outcome.
  apply find_single_unfixable. now rewrite is_unfixable_set_tup.
Qed.

(** A verdict [is_correct = False] is only ever given to a relationship
    that is not unfixable. *)
Lemma try_labels_flip_fixable labels rel v :
  try_labels labels rel sch = Ok v ->
  is_correct rel <> Some false ->
  is_correct v = Some false ->
  is_unfixable rel = false.
Proof.
  intros H Hc Hv. destruct (is_unfixable rel) eqn:E; [exfalso | reflexivity].
  destruct labels as [ | l labels].
  - simpl in H. inversion H; subst. contradiction.
  - rewrite (try_labels_unfixable _ _ _ E) in H.
    assert (Ev : v = next_round Correct l rel) by congruence. subst v.
    rewrite next_round_is_correct in Hv. discriminate.
Qed.

End candidate_loop.

(** ** Detection *)

Lemma rmapM_In {A B} (f : A -> result B) l ys y :
  rmapM f l = Ok ys -> In y ys -> exists x, In x l /\ f x = Ok y.
Proof.
  intros H. apply rmapM_Ok in H. induction H as [ | x y' l ys Hxy _ IH].
  - intros [].
  - intros [Hy | Hy].
    + subst y'. exists x. split; [now left | exact Hxy].
    + destruct (IH Hy) as (x' & Hin & Hx'). exists x'. split; [now right | exact Hx'].
Qed.

Lemma group_str_Some m name :
  is_Some (group m name) -> exists s, group_str m name = Ok s.
Proof. intros [s Hs]. unfold group_str. rewrite Hs. eauto. Qed.

Lemma node_label_entries_total :
  forall nodes acc, exists m, node_label_entries nodes acc = Ok m.
Proof.
  induction nodes as [ | node nodes IH]; intros acc; simpl; [eauto | ].
  unfold group_str. destruct (group node "node1_labels") as [labels | ]; simpl.
  - destruct (truthy labels); simpl; apply IH.
  - apply IH.
Qed.

Lemma detect_relationship_detected text sch obj rel :
  scanned text obj ->
  detect_relationship text sch PATTERN_CONFIG obj = Ok rel ->
  detected text rel /\ object rel = obj.
Proof.
  intros Hs H. unfold detect_relationship in H.
  apply rbind_Ok in H. destruct H as ([n1 n2] & _ & H).
  apply rbind_Ok in H. destruct H as (r & Hr & H).
  unfold detect_relationship_characteristics in Hr.
  apply rbind_Ok in Hr. destruct Hr as (labels & _ & Hr).
  apply rbind_Ok in Hr. destruct Hr as (vl & _ & Hr).
  inversion Hr; subst r; clear Hr. simpl in H.
  destruct (Py.startswith _ _).
  - unfold transform_negated_to_multi_label in H.
    apply rbind_Ok in H. destruct H as (ls & _ & H).
    inversion H; subst rel. split; [split; simpl; auto | reflexivity].
  - inversion H; subst rel. split; [split; simpl; auto | reflexivity].
Qed.

Lemma index_only_other_types sch negated :
  forall items, (forall item, In item items -> In item sch) ->
                index_only sch (other_types negated items).
Proof.
  induction items as [ | item items IH]; intros Hsub; simpl; [exact I | ].
  apply index_only_bind;
    [apply index_only_field; [lia | apply Hsub; now left] | intros t _].
  apply index_only_bind; [apply IH; intros; apply Hsub; now right | intros ts _].
  exact I.
Qed.

Lemma index_only_detect_relationship text sch obj :
  scanned text obj ->
  index_only sch (detect_relationship text sch PATTERN_CONFIG obj).
Proof.
  intros Hs. unfold detect_relationship, detect_node_labels.
  destruct (group_str_Some _ _ (scanned_node1_labels _ _ Hs)) as [l1 ->].
  destruct (group_str_Some _ _ (scanned_node2_labels _ _ Hs)) as [l2 ->].
  unfold node_label_map.
  destruct (node_label_entries_total
              (finditer (node1_pattern PATTERN_CONFIG) text) ∅) as [m ->].
  simpl rbind. unfold detect_relationship_characteristics.
  destruct (group_str_Some _ _ (scanned_rel_labels _ _ Hs)) as [l ->].
  destruct (scanned_rel_hops _ _ Hs) as [hops ->].
  simpl. destruct (String.eqb hops "*"); simpl;
    (destruct (Py.startswith _ _); [ | exact I];
     unfold transform_negated_to_multi_label;
     apply index_only_bind; [apply index_only_other_types; auto | intros; exact I]).
Qed.

Lemma detect_relationships_detected text sch rels :
  detect_relationships text sch PATTERN_CONFIG = Ok rels ->
  Forall (detected text) rels.
Proof.
  intros H. apply List.Forall_forall. intros rel Hin.
  destruct (rmapM_In _ _ _ _ H Hin) as (obj & Hobj & Hrel).
  apply relationship_pattern_scanned in Hobj.
  now destruct (detect_relationship_detected _ _ _ _ Hobj Hrel).
Qed.

Lemma index_only_detect_relationships text sch :
  index_only sch (detect_relationships text sch PATTERN_CONFIG).
Proof.
  unfold detect_relationships. apply index_only_rmapM.
  intros obj Hobj. apply index_only_detect_relationship.
  now apply relationship_pattern_scanned.
Qed.

(** ** The corrector and the orchestrator *)

Lemma detected_direction_cases text rel :
  detected text rel ->
  direction rel = None \/ direction rel = Some "<" \/ direction rel = Some ">".
Proof.
  intros [Hs Hd _ _]. rewrite Hd. unfold py_or.
  destruct (group (object rel) "rel_left_arrow") as [l | ] eqn:El; simpl.
  - rewrite (scanned_left _ _ Hs l El). simpl. auto.
  - destruct (group (object rel) "rel_right_arrow") as [r | ] eqn:Er; [ | auto].
    rewrite (scanned_right _ _ Hs r Er). auto.
Qed.

Lemma detected_frame text rel v :
  detected text rel -> same_frame rel v ->
  scanned text (object v)
  /\ (direction v = None \/ direction v = Some "<" \/ direction v = Some ">").
Proof.
  intros Hd (Ho & _ & _ & Hdir & _). rewrite <- Ho, <- Hdir.
  split; [apply Hd | eapply detected_direction_cases; exact Hd].
Qed.

Lemma switch_direction_total text0 text rel :
  scanned text0 (object rel) ->
  direction rel = None \/ direction rel = Some "<" \/ direction rel = Some ">" ->
  is_unfixable rel = false ->
  exists out, switch_direction text rel = Ok out.
Proof.
  intros Hs Hd Hu. destruct (scanned_whole _ _ Hs) as (w & rest & Hw & _).
  unfold switch_direction, group_str. rewrite Hw.
  destruct Hd as [Hd | [Hd | Hd]]; rewrite Hd; simpl; eauto.
  unfold is_unfixable in Hu. rewrite Hd in Hu. discriminate.
Qed.

Lemma index_only_fix_loop text0 sch :
  forall rels text,
    Forall (detected text0) rels ->
    index_only sch (fix_loop text rels sch).
Proof.
  induction rels as [ | rel rels IH]; intros text Hall; simpl; [exact I | ].
  inversion Hall as [ | x xs Hrel Hrest]; subst.
  apply index_only_bind; [apply index_only_try_labels | intros v Hv].
  destruct (bool_decide (schema_match v = Some false)); [exact I | ].
  destruct (bool_decide (is_correct v = Some false)) eqn:E; [ | now apply IH].
  apply bool_decide_eq_true_1 in E.
  destruct (try_labels_frame _ _ _ _ Hv) as [Hf _].
  destruct (detected_frame _ _ _ Hrel Hf) as [Hs Hd].
  assert (Hu : is_unfixable v = false).
  { rewrite <- (same_frame_unfixable _ _ Hf).
    eapply try_labels_flip_fixable; [exact Hv | | exact E].
    rewrite (detected_is_correct _ _ Hrel). discriminate. }
  destruct (switch_direction_total _ text _ Hs Hd Hu) as [out ->].
  simpl. now apply IH.
Qed.

(** The call either returns or raises the index error of a schema entry
    with fewer than three fields. *)
Lemma index_only_correct text schema_text :
  index_only (process_schema schema_text) (correct text schema_text).
Proof.
  unfold correct, fix_cypher_relationship_directions.
  apply index_only_bind; [apply index_only_detect_relationships | intros rels H].
  eapply index_only_fix_loop. eapply detect_relationships_detected. exact H.
Qed.

(** On a schema whose entries have three fields nothing raises. *)
Lemma index_only_full {A} sch (x : result A) :
  index_only sch x -> full sch -> exists a, x = Ok a.
Proof.
  destruct x as [a | e]; simpl; [eauto | ].
  intros [_ Hex] Hfull. exfalso.
  apply List.Exists_exists in Hex. destruct Hex as (item & Hin & Hlt).
  pose proof (proj1 (List.Forall_forall _ _) Hfull item Hin) as Hge.
  cbv beta in Hge, Hlt. lia.
Qed.

Lemma full_schema_never_fails text schema_text :
  full (process_schema schema_text) ->
  exists out, correct text schema_text = Ok out.
Proof. apply index_only_full, index_only_correct. Qed.

(** ** The matcher on a schema of triples *)

Lemma elem_true {A} `{EqDecision A} (x : A) (l : list A) :
  elem x l = true <-> In x l.
Proof.
  unfold elem. rewrite bool_decide_eq_true. apply list_elem_of_In.
Qed.

Lemma elem_false {A} `{EqDecision A} (x : A) (l : list A) :
  elem x l = false <-> ~ In x l.
Proof.
  unfold elem. rewrite bool_decide_eq_false. now rewrite list_elem_of_In.
Qed.

Lemma column_triples sch i :
  triples sch -> i < 3 ->
  column i sch = Ok (map (fun item => nth i item EmptyString) sch).
Proof.
  intros Ht Hi. unfold column.
  induction Ht as [ | item sch (s & t & o & -> & _) _ IH]; simpl; [reflexivity | ].
  rewrite IH. unfold field.
  destruct i as [ | [ | [ | i]]]; simpl; try reflexivity. lia.
Qed.

Lemma zip_columns {A B C} (f : A -> B) (g : A -> C) (l : list A) :
  zip (map f l) (map g l) = map (fun x => (f x, g x)) l.
Proof. induction l as [ | x l IH]; simpl; [reflexivity | now rewrite IH]. Qed.

Lemma In_zip_columns sch i j (x y : string) :
  triples sch ->
  In (x, y) (zip (map (fun item => nth i item EmptyString) sch)
                 (map (fun item => nth j item EmptyString) sch))
  <-> exists s t o, In [s; t; o] sch
                    /\ nth i [s; t; o] EmptyString = x
                    /\ nth j [s; t; o] EmptyString = y.
Proof.
  intros Ht. rewrite zip_columns, in_map_iff. split.
  - intros (item & E & Hin). inversion E; subst.
    destruct (proj1 (List.Forall_forall _ _) Ht item Hin) as (s & t & o & -> & _).
    exists s, t, o. auto.
  - intros (s & t & o & Hin & <- & <-). exists [s; t; o]. auto.
Qed.

Lemma In_column sch i (x : string) :
  triples sch ->
  In x (map (fun item => nth i item EmptyString) sch)
  <-> exists s t o, In [s; t; o] sch /\ nth i [s; t; o] EmptyString = x.
Proof.
  intros Ht. rewrite in_map_iff. split.
  - intros (item & E & Hin).
    destruct (proj1 (List.Forall_forall _ _) Ht item Hin) as (s & t & o & -> & _).
    exists s, t, o. auto.
  - intros (s & t & o & Hin & <-). exists [s; t; o]. auto.
Qed.

Lemma truthy_true s : truthy s = true <-> s <> EmptyString.
Proof. destruct s; simpl; split; congruence. Qed.

Lemma truthy_false s : truthy s = false <-> s = EmptyString.
Proof. destruct s; simpl; split; congruence. Qed.

Lemma compatible_known a s : a <> EmptyString -> compatible a s <-> a = s.
Proof. unfold compatible. intros H. split; [intros [E | E]; congruence | auto]. Qed.

Lemma compatible_unknown s : compatible EmptyString s.
Proof. now left. Qed.

Lemma fits_complete sch a t c :
  a <> EmptyString -> c <> EmptyString ->
  fits sch (a, t, c) <-> In [a; t; c] sch.
Proof.
  intros Ha Hc. unfold fits. split.
  - intros (s & o & Hin & Hs & Ho).
    apply compatible_known in Hs; [ | exact Ha].
    apply compatible_known in Ho; [ | exact Hc]. now subst.
  - intros Hin. exists a, c. split; [exact Hin | ]. split; now right.
Qed.

Lemma fits_source sch a t :
  a <> EmptyString ->
  fits sch (a, t, EmptyString) <-> exists o, In [a; t; o] sch.
Proof.
  intros Ha. unfold fits. split.
  - intros (s & o & Hin & Hs & _).
    apply compatible_known in Hs; [ | exact Ha]. subst. eauto.
  - intros (o & Hin). exists a, o. split; [exact Hin | ].
    split; [now right | now left].
Qed.

Lemma fits_target sch t c :
  c <> EmptyString ->
  fits sch (EmptyString, t, c) <-> exists s, In [s; t; c] sch.
Proof.
  intros Hc. unfold fits. split.
  - intros (s & o & Hin & _ & Ho).
    apply compatible_known in Ho; [ | exact Hc]. subst. eauto.
  - intros (s & Hin). exists s, c. split; [exact Hin | ].
    split; [now left | now right].
Qed.

Lemma fits_type sch t :
  fits sch (EmptyString, t, EmptyString) <-> exists s o, In [s; t; o] sch.
Proof.
  unfold fits. split.
  - intros (s & o & Hin & _ & _). eauto.
  - intros (s & o & Hin). exists s, o. split; [exact Hin | ].
    split; now left.
Qed.

(** On a schema of triples the matcher closes with [Correct] exactly when
    the tuple, read from source to target, fits the schema, and with
    [NeedsFlip] only when its reverse does. *)
Lemma single_outcome_spec sch rel a t c :
  triples sch ->
  is_unfixable rel = false ->
  make_left_to_right rel = (a, t, c) ->
  is_complete rel = truthy a && truthy c ->
  t <> EmptyString ->
  exists o,
    single_outcome rel sch o
    /\ (o = Correct <-> fits sch (a, t, c))
    /\ (o = NeedsFlip -> fits sch (c, t, a)).
Proof.
  intros Ht Hu Hl Hcomp Hty.
  assert (Etrue : truthy t = true) by now apply truthy_true.
  unfold single_outcome, find_single_label_relationship_in_schema.
  rewrite Hu, Hcomp.
  destruct (truthy a) eqn:Ea, (truthy c) eqn:Ec; simpl andb; cbv iota.
  - (* both labels known *)
    apply truthy_true in Ea, Ec.
    unfold find_complete_tup_in_schema. rewrite Hl. simpl as_item.
    setoid_rewrite (fits_complete sch a t c Ea Ec).
    setoid_rewrite (fits_complete sch c t a Ec Ea).
    destruct (elem [a; t; c] sch) eqn:E1.
    + apply elem_true in E1. exists Correct. repeat split; auto; discriminate.
    + apply elem_false in E1. destruct (elem [c; t; a] sch) eqn:E2.
      * apply elem_true in E2. exists NeedsFlip.
        repeat split; auto; try discriminate. contradiction.
      * exists NoMatch. repeat split; auto; try discriminate. contradiction.
  - (* the target label is unknown *)
    apply truthy_true in Ea. apply truthy_false in Ec. subst c.
    unfold find_partial_tup_in_schema. rewrite Hl, Etrue.
    rewrite (proj2 (truthy_true a) Ea). simpl truthy. cbv iota.
    unfold lookup_pair. rewrite !column_triples by (auto; lia). simpl rbind.
    setoid_rewrite (fits_source sch a t Ea).
    setoid_rewrite (fits_target sch t a Ea).
    destruct (elem (a, t) _) eqn:E1.
    + apply elem_true, In_zip_columns in E1; [ | exact Ht].
      destruct E1 as (s & t' & o & Hin & Hs & Ht'). simpl in Hs, Ht'. subst.
      exists Correct. repeat split; eauto; discriminate.
    + apply elem_false in E1. rewrite In_zip_columns in E1 by exact Ht.
      destruct (elem (a, t) _) eqn:E2.
      * apply elem_true, In_zip_columns in E2; [ | exact Ht].
        destruct E2 as (s & t' & o & Hin & Hs & Ht'). simpl in Hs, Ht'. subst.
        exists NeedsFlip. repeat split; eauto; try discriminate.
        intros (o' & Ho'). exfalso. apply E1. exists a, t, o'. auto.
      * exists NoMatch. repeat split; try discriminate.
        intros (o' & Ho'). exfalso. apply E1. exists a, t, o'. auto.
  - (* the source label is unknown *)
    apply truthy_false in Ea. apply truthy_true in Ec. subst a.
    unfold find_partial_tup_in_schema. rewrite Hl, Etrue.
    rewrite (proj2 (truthy_true c) Ec). simpl truthy. cbv iota.
    unfold lookup_pair. rewrite !column_triples by (auto; lia). simpl rbind.
    setoid_rewrite (fits_target sch t c Ec).
    setoid_rewrite (fits_source sch c t Ec).
    destruct (elem (t, c) _) eqn:E1.
    + apply elem_true, In_zip_columns in E1; [ | exact Ht].
      destruct E1 as (s & t' & o & Hin & Ht' & Ho). simpl in Ht', Ho. subst.
      exists Correct. repeat split; eauto; discriminate.
    + apply elem_false in E1. rewrite In_zip_columns in E1 by exact Ht.
      destruct (elem (t, c) _) eqn:E2.
      * apply elem_true, In_zip_columns in E2; [ | exact Ht].
        destruct E2 as (s & t' & o & Hin & Ht' & Hs). simpl in Ht', Hs. subst.
        exists NeedsFlip. repeat split; eauto; try discriminate.
        intros (s' & Hs'). exfalso. apply E1. exists s', t, c. auto.
      * exists NoMatch. repeat split; try discriminate.
        intros (s' & Hs'). exfalso. apply E1. exists s', t, c. auto.
  - (* both labels unknown *)
    apply truthy_false in Ea, Ec. subst a c.
    unfold find_partial_tup_in_schema. rewrite Hl, Etrue. simpl truthy. cbv iota.
    rewrite column_triples by (auto; lia). simpl rbind.
    setoid_rewrite (fits_type sch t).
    destruct (elem t _) eqn:E1.
    + apply elem_true, In_column in E1; [ | exact Ht].
      destruct E1 as (s & t' & o & Hin & Ht'). simpl in Ht'. subst.
      exists Correct. repeat split; eauto; discriminate.
    + apply elem_false in E1. rewrite In_column in E1 by exact Ht.
      exists NoMatch. repeat split; try discriminate.
      intros (s & o & Hin). exfalso. apply E1. exists s, t, o. auto.
Qed.

Lemma oriented_cases rel t :
  oriented rel t = (label1 (node1 rel), t, label1 (node2 rel))
  \/ oriented rel t = (label1 (node2 rel), t, label1 (node1 rel)).
Proof.
  unfold oriented, make_left_to_right. simpl.
  destruct (is_str (direction rel) "<"); auto.
Qed.

Lemma oriented_frame rel rel' t :
  same_frame rel rel' -> oriented rel t = oriented rel' t.
Proof.
  intros (_ & Hn1 & Hn2 & Hd & _). unfold oriented, make_left_to_right. simpl.
  now rewrite Hn1, Hn2, Hd.
Qed.

Lemma candidate_outcome_spec sch rel t :
  triples sch ->
  is_unfixable rel = false ->
  t <> EmptyString ->
  exists o,
    candidate_outcome rel sch t o
    /\ (o = Correct <-> fits sch (oriented rel t))
    /\ (o = NeedsFlip -> fits sch (reversed (oriented rel t))).
Proof.
  intros Ht Hu Hty. unfold candidate_outcome.
  set (rel1 := set_tup (label1 (node1 rel), t, label1 (node2 rel)) rel).
  assert (Hu1 : is_unfixable rel1 = false) by exact Hu.
  assert (Hcomp : forall a c,
             (a = label1 (node1 rel) /\ c = label1 (node2 rel))
             \/ (a = label1 (node2 rel) /\ c = label1 (node1 rel)) ->
             is_complete rel1 = truthy a && truthy c).
  { intros a c Hac. unfold is_complete. simpl.
    destruct t as [ | x t']; [congruence | ].
    destruct Hac as [[-> ->] | [-> ->]];
      destruct (label1 (node1 rel)), (label1 (node2 rel)); reflexivity. }
  destruct (oriented_cases rel t) as [E | E]; rewrite E;
    (eapply single_outcome_spec;
     [exact Ht | exact Hu1 | exact E | apply Hcomp; auto | exact Hty]).
Qed.

Lemma other_types_spec negated :
  forall sch ls,
    other_types negated sch = Ok ls ->
    exists types,
      column 1 sch = Ok types
      /\ ls = List.filter (fun t => negb (String.eqb t negated)) types.
Proof.
  induction sch as [ | item sch IH]; intros ls H; simpl in H.
  - inversion H. exists []. split; reflexivity.
  - apply rbind_Ok in H. destruct H as (t & Ht & H).
    apply rbind_Ok in H. destruct H as (ts & Hts & H).
    destruct (IH ts Hts) as (types & Hc & ->).
    exists (t :: types). unfold column in *. simpl. rewrite Ht, Hc. simpl.
    split; [reflexivity | ].
    inversion H. destruct (String.eqb t negated); reflexivity.
Qed.

Lemma column_In i sch types t :
  column i sch = Ok types ->
  In t types <-> exists item, In item sch /\ nth_error item i = Some t.
Proof.
  unfold column. intros H. apply rmapM_Ok in H.
  induction H as [ | item t' sch types Hf _ IH]; simpl.
  - split; [intros [] | intros (item & [] & _)].
  - unfold field in Hf. destruct (nth_error item i) as [x | ] eqn:E; [ | discriminate].
    inversion Hf; subst x. rewrite IH. split.
    + intros [<- | (it & Hin & Hn)]; [exists item; auto | exists it; auto].
    + intros (it & [<- | Hin] & Hn); [left; congruence | right; eauto].
Qed.

Lemma triples_type sch item t :
  triples sch -> In item sch -> nth_error item 1 = Some t ->
  t <> EmptyString /\ exists s o, item = [s; t; o].
Proof.
  intros Ht Hin Hn.
  destruct (proj1 (List.Forall_forall _ _) Ht item Hin) as (s & t' & o & -> & Hne).
  simpl in Hn. inversion Hn; subst. eauto.
Qed.

(** A candidate with both labels and the type known, whose triple the
    schema has in neither orientation, yields [NoMatch]: the schema needs
    no particular shape for that. *)
Lemma absent_triple_no_match rel sch label :
  is_unfixable rel = false ->
  label1 (node1 rel) <> EmptyString -> label <> EmptyString ->
  label1 (node2 rel) <> EmptyString ->
  ~ In (as_item (oriented rel label)) sch ->
  ~ In (as_item (reversed (oriented rel label))) sch ->
  candidate_outcome rel sch label NoMatch.
Proof.
  intros Hu H1 Hl H2 Hfwd Hrev.
  unfold candidate_outcome, single_outcome,
    find_single_label_relationship_in_schema.
  rewrite is_unfixable_set_tup, Hu.
  assert (Hc : is_complete
                 (set_tup (label1 (node1 rel), label, label1 (node2 rel)) rel)
               = true).
  { unfold is_complete. simpl.
    destruct (label1 (node1 rel)), label, (label1 (node2 rel));
      try congruence; reflexivity. }
  rewrite Hc. unfold find_complete_tup_in_schema.
  fold (oriented rel label).
  rewrite (proj2 (elem_false _ _) Hfwd), (proj2 (elem_false _ _) Hrev).
  reflexivity.
Qed.

(** * The claims *)

(** ** C1: one unmatched occurrence rejects the query *)

Lemma fix_loop_rejects text0 sch rel post v :
  find_relationship_in_schema rel sch = Ok v ->
  schema_match v = Some false ->
  forall pre text,
    Forall (detected text0) pre ->
    Forall (fun r => exists v', find_relationship_in_schema r sch = Ok v') pre ->
    fix_loop text (pre ++ rel :: post) sch = Ok EmptyString.
Proof.
  intros Hv Hs.
  induction pre as [ | r pre IH]; intros text Hdet Hpre; cbn [fix_loop app].
  - rewrite Hv. cbn [rbind]. now rewrite bool_decide_eq_true_2.
  - inversion Hdet as [ | x xs Hr Hdet']; subst.
    inversion Hpre as [ | x xs [v' Hv'] Hpre']; subst.
    rewrite Hv'. cbn [rbind]. unfold find_relationship_in_schema in Hv'.
    destruct (bool_decide (schema_match v' = Some false)); [reflexivity | ].
    destruct (bool_decide (is_correct v' = Some false)) eqn:E; [ | now apply IH].
    apply bool_decide_eq_true_1 in E.
    destruct (try_labels_frame _ _ _ _ Hv') as [Hf _].
    destruct (detected_frame _ _ _ Hr Hf) as [Hsc Hd].
    assert (Hu : is_unfixable v' = false).
    { rewrite <- (same_frame_unfixable _ _ Hf).
      eapply try_labels_flip_fixable; [exact Hv' | | exact E].
      rewrite (detected_is_correct _ _ Hr). discriminate. }
    destruct (switch_direction_total _ text _ Hsc Hd Hu) as [out ->].
    simpl. now apply IH.
Qed.

(** On a schema whose entries have three fields every occurrence receives
    a verdict, and one verdict [schema_match = False] rejects the query. *)
Lemma full_schema_rejects text schema_text :
  full (process_schema schema_text) ->
  exists rels,
    detect_relationships text (process_schema schema_text) PATTERN_CONFIG = Ok rels
    /\ forall rel v,
         In rel rels ->
         find_relationship_in_schema rel (process_schema schema_text) = Ok v ->
         schema_match v = Some false ->
         correct text schema_text = Ok EmptyString.
Proof.
  intros Hfull.
  destruct (index_only_full _ _ (index_only_detect_relationships text _) Hfull)
    as [rels Hrels].
  exists rels. split; [exact Hrels | ]. intros rel v Hin Hv Hs.
  unfold correct, fix_cypher_relationship_directions. rewrite Hrels. simpl.
  apply detect_relationships_detected in Hrels.
  destruct (in_split _ _ Hin) as (pre & post & ->).
  eapply fix_loop_rejects; try eassumption.
  - apply List.Forall_forall. intros r Hr.
    apply (proj1 (List.Forall_forall _ _) Hrels). apply in_or_app. now left.
  - apply List.Forall_forall. intros r _.
    apply (index_only_full _ _ (index_only_try_labels _ _ r) Hfull).
Qed.

(** C1.  Whenever the run gives some detected occurrence the verdict
    [schema_match = False], [correct] returns the empty string, whatever
    the other occurrences are.  The occurrence receives its verdict when
    the loop reaches it, that is when the matcher has returned on the
    occurrences before it. *)
Theorem C1_unmatched_occurrence_rejects text schema_text rels pre rel post v :
  detect_relationships text (process_schema schema_text) PATTERN_CONFIG = Ok rels ->
  rels = pre ++ rel :: post ->
  Forall (fun r => exists v',
            find_relationship_in_schema r (process_schema schema_text) = Ok v')
         pre ->
  find_relationship_in_schema rel (process_schema schema_text) = Ok v ->
  schema_match v = Some false ->
  correct text schema_text = Ok EmptyString.
Proof.
  intros Hdet Hrels Hpre Hv Hs.
  unfold correct, fix_cypher_relationship_directions. rewrite Hdet. simpl.
  apply detect_relationships_detected in Hdet. subst rels.
  eapply fix_loop_rejects; try eassumption.
  apply List.Forall_forall. intros r Hr.
  eapply (proj1 (List.Forall_forall _ _) Hdet). apply in_or_app. now left.
Qed.

(** A valid occurrence that needs no change, followed by one whose triple
    (Person, OWNS, Car) the schema has in neither orientation. *)
Lemma C1_witness :
  correct "MATCH (p:Person)-[:WORKS_AT]->(o:Organization), (p)-[:OWNS]->(c:Car)"
          "(Person, KNOWS, Person), (Person, WORKS_AT, Organization)"
  = Ok EmptyString.
Proof.
  eapply C1_unmatched_occurrence_rejects.
  - vm_compute. reflexivity.
  - match goal with
    | |- [?a; ?b] = _ => change [a; b] with ([a] ++ b :: [])
    end.
    reflexivity.
  - constructor; [ | constructor]. eexists. vm_compute. reflexivity.
  - vm_compute. reflexivity.
  - reflexivity.
Defined.

(** ** C2: the example of the docstring *)

(** C2.  On the query and schema of the docstring, [correct] returns the
    query with the arrow of the [WORKS_AT] relationship turned round. *)
Theorem C2_docstring_example :
  correct
    "MATCH (p:Person) RETURN p, [(p)<-[:WORKS_AT]-(o:Organization) | o.name] AS op"
    "(Person, KNOWS, Person), (Person, WORKS_AT, Organization)"
  = Ok "MATCH (p:Person) RETURN p, [(p)-[:WORKS_AT]->(o:Organization) | o.name] AS op".
Proof. vm_compute. reflexivity. Qed.

(** ** C3: what the corrector rewrites *)




(** ** C4: which candidate decides *)

(** C4 (as the code has it).  For a relationship that carries no verdict
    yet, the candidates are tried in listed order and the search stops at
    the first one that yields [Correct]: the verdict is then
    [is_correct = True], [schema_match = True], and the candidates behind it
    are not examined.  A candidate that yields [NeedsFlip] does not stop
    the search.  When no candidate yields [Correct] and the last one yields
    [NeedsFlip], the verdict is [is_correct = False], [schema_match = True].
    When the list is not empty and every candidate yields [NoMatch], the
    verdict is [schema_match = False]. *)
Theorem C4_first_correct_candidate_decides rel sch :
  is_correct rel = None ->
  (forall l1 c l2,
      multi_labels rel = l1 ++ c :: l2 ->
      passed_over sch rel l1 ->
      candidate_outcome rel sch c Correct ->
      exists v,
        find_relationship_in_schema rel sch = Ok v
        /\ try_labels (l1 ++ [c]) rel sch = Ok v
        /\ is_correct v = Some true /\ schema_match v = Some true)
  /\ (forall l1 c,
         multi_labels rel = l1 ++ [c] ->
         passed_over sch rel l1 ->
         candidate_outcome rel sch c NeedsFlip ->
         exists v,
           find_relationship_in_schema rel sch = Ok v
           /\ is_correct v = Some false /\ schema_match v = Some true)
  /\ (multi_labels rel <> [] ->
      Forall (fun l => candidate_outcome rel sch l NoMatch) (multi_labels rel) ->
      exists v,
        find_relationship_in_schema rel sch = Ok v
        /\ is_correct v = None /\ schema_match v = Some false).
Proof.
  intros Hfresh.
  assert (Hc : is_correct rel <> Some true) by (rewrite Hfresh; discriminate).
  unfold find_relationship_in_schema. repeat split.
  - intros l1 c l2 Hl Hl1 Hcor. rewrite Hl.
    destruct (try_labels_first_correct sch c l2 l1 rel Hc Hl1 Hcor)
      as (v & H1 & H2 & H3 & H4).
    exists v. auto.
  - intros l1 c Hl Hl1 Hflip. rewrite Hl.
    apply try_labels_last_needs_flip; assumption.
  - intros Hne Hall. destruct (multi_labels rel) as [ | l labels]; [congruence | ].
    destruct (try_labels_all_no_match sch labels l rel Hc Hall) as (v & H1 & H2 & H3).
    exists v. rewrite <- Hfresh. auto.
Qed.

(** The candidates [T1], [T2] of one occurrence: [T1] is in the schema the
    other way round, [T2] as written.  The search goes past [T1]. *)
Lemma C4_witness :
  exists rel v,
    detect_relationships "MATCH (a:A)-[:T1|T2]->(b:B)"
      (process_schema "(B, T1, A), (A, T2, B)") PATTERN_CONFIG = Ok [rel]
    /\ find_relationship_in_schema rel (process_schema "(B, T1, A), (A, T2, B)")
       = Ok v
    /\ is_correct v = Some true /\ schema_match v = Some true.
Proof.
  let x := eval vm_compute in
    (detect_relationships "MATCH (a:A)-[:T1|T2]->(b:B)"
       (process_schema "(B, T1, A), (A, T2, B)") PATTERN_CONFIG) in
  match x with
  | Ok [?r] => pose (rel := r)
  end.
  destruct (C4_first_correct_candidate_decides
              rel (process_schema "(B, T1, A), (A, T2, B)") eq_refl)
    as (H1 & _ & _).
  destruct (H1 ["T1"] "T2" [] eq_refl) as (v & Hv & _ & Hc & Hs).
  - unfold passed_over. constructor; [ | constructor]. left.
    unfold candidate_outcome, single_outcome. vm_compute. reflexivity.
  - unfold candidate_outcome, single_outcome. vm_compute. reflexivity.
  - exists rel, v. split; [vm_compute; reflexivity | auto].
Defined.

(** The first candidate that yields correct or needs-flip is [T1], and it
    yields needs-flip; the verdict of the occurrence is nevertheless
    correct, and the query is returned as it is. *)
Lemma C4_counterexample :
  exists rel v,
    detect_relationships "MATCH (a:A)-[:T1|T2]->(b:B)"
      (process_schema "(B, T1, A), (A, T2, B)") PATTERN_CONFIG = Ok [rel]
    /\ is_unfixable rel = false
    /\ is_multi_label rel = true
    /\ multi_labels rel = ["T1"; "T2"]
    /\ candidate_outcome rel (process_schema "(B, T1, A), (A, T2, B)")
         "T1" NeedsFlip
    /\ find_relationship_in_schema rel (process_schema "(B, T1, A), (A, T2, B)")
       = Ok v
    /\ is_correct v = Some true
    /\ correct "MATCH (a:A)-[:T1|T2]->(b:B)" "(B, T1, A), (A, T2, B)"
       = Ok "MATCH (a:A)-[:T1|T2]->(b:B)".
Proof.
  eexists _, _. split; [vm_compute; reflexivity | ].
  repeat split; vm_compute; reflexivity.
Qed.

(** ** C5: unfixable occurrences *)

Lemma unfixable_cases rel :
  direction rel = None
  \/ label1 (node1 rel) = label1 (node2 rel)
  \/ is_variable_length rel = true ->
  is_unfixable rel = true.
Proof.
  unfold is_unfixable. intros [H | [H | H]]; rewrite H; simpl.
  - reflexivity.
  - rewrite String.eqb_refl. now rewrite orb_true_r.
  - now rewrite orb_true_r.
Qed.

Lemma try_labels_unfixable_any_schema sch sch' rel :
  is_unfixable rel = true ->
  forall labels, try_labels labels rel sch = try_labels labels rel sch'.
Proof.
  intros H [ | l labels]; [reflexivity | ].
  now rewrite !(try_labels_unfixable _ _ _ _ H).
Qed.

(** The step of the orchestrator for an unfixable occurrence passes the
    text on as it is. *)
Lemma fix_loop_skips_unfixable text rel rest sch :
  is_unfixable rel = true ->
  is_correct rel = None -> schema_match rel = None ->
  fix_loop text (rel :: rest) sch = fix_loop text rest sch.
Proof.
  intros Hu Hc Hs. cbn [fix_loop]. unfold find_relationship_in_schema.
  destruct (multi_labels rel) as [ | l labels].
  - simpl. rewrite Hc, Hs. reflexivity.
  - rewrite (try_labels_unfixable _ _ _ _ Hu). reflexivity.
Qed.

(** A query whose occurrences are all unfixable is returned as it is. *)
Lemma all_unfixable_unchanged text schema_text rels :
  detect_relationships text (process_schema schema_text) PATTERN_CONFIG = Ok rels ->
  Forall (fun rel => is_unfixable rel = true) rels ->
  correct text schema_text = Ok text.
Proof.
  intros Hdet Hall. unfold correct, fix_cypher_relationship_directions.
  rewrite Hdet. simpl. apply detect_relationships_detected in Hdet.
  induction rels as [ | rel rels IH]; [reflexivity | ].
  inversion Hall as [ | x xs Hu Hrest]; subst.
  inversion Hdet as [ | x xs Hrel Hdet']; subst.
  rewrite fix_loop_skips_unfixable; [now apply IH | exact Hu | apply Hrel..].
Qed.

(** C5 (as the code has it).  For an occurrence that is undirected, or has
    two identical primary labels, or is of variable length, and any schema:
    the matcher gives the verdict [schema_match = True], [is_correct = True]
    as soon as there is a candidate label (only a negated type whose
    expansion is empty leaves the verdict unset); the schema plays no part
    in it; and the step of the orchestrator for that occurrence passes the
    text on as it is, so the corrector is never applied to it. *)
Theorem C5_unfixable_is_left_alone rel sch :
  direction rel = None
  \/ label1 (node1 rel) = label1 (node2 rel)
  \/ is_variable_length rel = true ->
  is_correct rel = None -> schema_match rel = None ->
  (multi_labels rel <> [] ->
   exists v, find_relationship_in_schema rel sch = Ok v
             /\ schema_match v = Some true /\ is_correct v = Some true)
  /\ (forall sch',
         find_relationship_in_schema rel sch = find_relationship_in_schema rel sch')
  /\ (forall text rest,
         fix_loop text (rel :: rest) sch = fix_loop text rest sch).
Proof.
  intros Hcase Hc Hs. apply unfixable_cases in Hcase.
  unfold find_relationship_in_schema. repeat split.
  - intros Hne. destruct (multi_labels rel) as [ | l labels]; [congruence | ].
    rewrite (try_labels_unfixable _ _ _ _ Hcase). eexists. split; [reflexivity | ].
    split; reflexivity.
  - intros sch'. now apply try_labels_unfixable_any_schema.
  - intros text rest. now apply fix_loop_skips_unfixable.
Qed.

(** An undirected occurrence, a schema the wrong way round for it. *)
Lemma C5_witness :
  exists rel v,
    detect_relationships "MATCH (a:Person)-[:WORKS_AT]-(o:Organization)"
      (process_schema "(Organization, WORKS_AT, Person)") PATTERN_CONFIG
    = Ok [rel]
    /\ find_relationship_in_schema rel
         (process_schema "(Organization, WORKS_AT, Person)") = Ok v
    /\ schema_match v = Some true /\ is_correct v = Some true.
Proof.
  let x := eval vm_compute in
    (detect_relationships "MATCH (a:Person)-[:WORKS_AT]-(o:Organization)"
       (process_schema "(Organization, WORKS_AT, Person)") PATTERN_CONFIG) in
  match x with
  | Ok [?r] => pose (rel := r)
  end.
  destruct (C5_unfixable_is_left_alone
              rel (process_schema "(Organization, WORKS_AT, Person)")
              (or_introl eq_refl) eq_refl eq_refl) as (H1 & _ & _).
  destruct H1 as (v & Hv & Hs & Hc); [discriminate | ].
  exists rel, v. split; [vm_compute; reflexivity | auto].
Defined.

(** The verdict of an undirected occurrence with a negated type is unset
    when the schema has no other type; the span of an occurrence with two
    equal labels changes when it sits in a property of an occurrence that
    is turned round. *)
Lemma C5_counterexample :
  (exists rel v,
      detect_relationships "MATCH (a:A)-[:!R]-(b:B)"
        (process_schema "(A, R, B)") PATTERN_CONFIG = Ok [rel]
      /\ direction rel = None
      /\ find_relationship_in_schema rel (process_schema "(A, R, B)") = Ok v
      /\ schema_match v = None /\ is_correct v = None)
  /\ (exists outer inner,
         detect_relationships "(:C {k:'(:A)-->(:A)'})-->(:D)"
           (process_schema "(D, S, C)") PATTERN_CONFIG = Ok [outer; inner]
         /\ label1 (node1 inner) = label1 (node2 inner)
         /\ m_start (object inner) = 8
         /\ group (object inner) "whole_relationship" = Some "(:A)-->(:A)"
         /\ String.substring 8 11 "(:C {k:'(:A)-->(:A)'})-->(:D)" = "(:A)-->(:A)"
         /\ correct "(:C {k:'(:A)-->(:A)'})-->(:D)" "(D, S, C)"
            = Ok "(:C {k:'(:A)<--(:A)'})<--(:D)"
         /\ String.substring 8 11 "(:C {k:'(:A)<--(:A)'})<--(:D)" = "(:A)<--(:A)").
Proof.
  split.
  - eexists _, _. split; [vm_compute; reflexivity | ].
    repeat split; vm_compute; reflexivity.
  - eexists _, _. split; [vm_compute; reflexivity | ].
    repeat split; vm_compute; reflexivity.
Qed.

(** ** C6: what a malformed schema text does *)

(** C6 (as the code has it).  There is no schema validation and no
    schema format error: for every query and schema text the call either
    returns a string or raises an index error, and it raises only if the
    list that [process_schema] builds from the schema text has an entry
    with fewer than three fields.  So a schema whose entries all have three
    fields or more never fails.  An entry with fewer than three fields does
    not make the call fail by itself: the error arises only when a lookup
    reads the missing field. *)
Theorem C6_only_short_entries_fail :
  (forall text schema_text,
      (exists out, correct text schema_text = Ok out)
      \/ (correct text schema_text = Raise IndexError
          /\ Exists (fun item => length item < 3) (process_schema schema_text)))
  /\ (exists text schema_text,
         Exists (fun item => length item < 3) (process_schema schema_text)
         /\ correct text schema_text = Ok text).
Proof.
  split.
  - intros text schema_text.
    pose proof (index_only_correct text schema_text) as H.
    destruct (correct text schema_text) as [out | e]; simpl in H.
    + left. eauto.
    + right. destruct H as [-> H]. auto.
  - exists "MATCH (n:Person) RETURN n", "(Person, KNOWS)". split.
    + apply List.Exists_exists. exists ["Person"; "KNOWS"].
      split; [vm_compute; auto | simpl; lia].
    + vm_compute. reflexivity.
Qed.

(** A schema text whose only group has two fields, and another with four:
    the call returns. A short entry raises only when a lookup reaches it. *)
Lemma C6_counterexample :
  process_schema "(Person, KNOWS)" = [["Person"; "KNOWS"]]
  /\ correct "MATCH (n:Person) RETURN n" "(Person, KNOWS)"
     = Ok "MATCH (n:Person) RETURN n"
  /\ correct "MATCH (a:Person)-[:KNOWS]->(b:Dog)" "(Person, KNOWS, Dog, extra)"
     = Ok EmptyString
  /\ correct "MATCH (a)-[:KNOWS]->(b:Person)" "(Person, KNOWS)"
     = Raise IndexError.
Proof. repeat split; vm_compute; reflexivity. Qed.

(** ** C7: a negated relationship type *)

(** C7 (as the code has it).  For a negated occurrence the candidate list
    becomes the relationship types of the schema entries, in schema order
    and once per entry, without those equal to the excluded type, and
    [is_multi_label] becomes true.  On a schema of triples and for an
    occurrence that is not unfixable: a verdict [schema_match = True]
    implies that some type other than the excluded one has a triple between
    compatible labels in one of the two orientations; and when some such
    type has a triple in the orientation of the occurrence, the verdict is
    [schema_match = True], [is_correct = True]. *)
Theorem C7_negated_type_expansion rel sch rel' :
  transform_negated_to_multi_label rel sch = Ok rel' ->
  is_multi_label rel' = true
  /\ (exists types,
         column 1 sch = Ok types
         /\ multi_labels rel'
            = List.filter (fun t => negb (String.eqb t (excluded_type rel))) types)
  /\ (forall t,
         In t (multi_labels rel')
         <-> t <> excluded_type rel
             /\ exists item, In item sch /\ nth_error item 1 = Some t)
  /\ (triples sch -> is_unfixable rel = false ->
      is_correct rel = None -> schema_match rel = None ->
      (forall v,
          find_relationship_in_schema rel' sch = Ok v ->
          schema_match v = Some true ->
          exists t, t <> excluded_type rel
                    /\ (fits sch (oriented rel t)
                        \/ fits sch (reversed (oriented rel t))))
      /\ ((exists t, t <> excluded_type rel /\ fits sch (oriented rel t)) ->
          exists v, find_relationship_in_schema rel' sch = Ok v
                    /\ schema_match v = Some true /\ is_correct v = Some true)).
Proof.
  intros H. unfold transform_negated_to_multi_label in H.
  apply rbind_Ok in H. destruct H as (labels & Hl & H).
  inversion H; subst rel'; clear H. fold (excluded_type rel) in Hl.
  destruct (other_types_spec _ _ _ Hl) as (types & Hcol & Hlabels).
  assert (Hmem : forall t,
             In t labels
             <-> t <> excluded_type rel
                 /\ exists item, In item sch /\ nth_error item 1 = Some t).
  { intros t. rewrite Hlabels, filter_In, (column_In _ _ _ t Hcol).
    rewrite negb_true_iff, String.eqb_neq. tauto. }
  split; [reflexivity | ]. split; [exists types; auto | ]. split; [exact Hmem | ].
  intros Ht Hu Hc Hs.
  set (rel' := set_multi_labels labels rel).
  assert (Hf : same_frame rel rel') by (repeat split).
  assert (Hu' : is_unfixable rel' = false) by exact Hu.
  assert (Hspec : forall l, In l labels ->
            exists o, candidate_outcome rel' sch l o
                      /\ (o = Correct <-> fits sch (oriented rel l))
                      /\ (o = NeedsFlip -> fits sch (reversed (oriented rel l)))).
  { intros l Hin. apply Hmem in Hin. destruct Hin as (_ & item & Hin & Hn).
    destruct (triples_type _ _ _ Ht Hin Hn) as [Hne _].
    rewrite (oriented_frame _ _ l Hf). now apply candidate_outcome_spec. }
  unfold find_relationship_in_schema. simpl multi_labels. split.
  - intros v Hv Hm.
    destruct (try_labels_matched sch labels rel' v) as (l & o & Hin & Ho & Hcand);
      [simpl; rewrite Hs; discriminate | exact Hv | exact Hm | ].
    destruct (Hspec l Hin) as (o' & Hcand' & Hcor & Hflip).
    pose proof (candidate_outcome_unique _ _ _ _ _ Hcand Hcand'). subst o'.
    exists l. split; [apply Hmem; exact Hin | ].
    destruct o; [left; now apply Hcor | right; now apply Hflip | congruence].
  - intros (t & Hne & Hfit).
    assert (Hin : In t labels).
    { apply Hmem. split; [exact Hne | ].
      destruct (oriented_cases rel t) as [E | E]; rewrite E in Hfit;
        destruct Hfit as (s & o & Hin & _); exists [s; t; o]; auto. }
    cut (exists v, try_labels labels rel' sch = Ok v
                   /\ is_correct v = Some true /\ schema_match v = Some true).
    { intros (v & Hv & Hcv & Hsv). exists v. auto. }
    apply try_labels_some_correct.
    + simpl. rewrite Hc. discriminate.
    + apply List.Forall_forall. intros l Hl'.
      destruct (Hspec l Hl') as (o & Ho & _). eauto.
    + apply List.Exists_exists. exists t. split; [exact Hin | ].
      destruct (Hspec t Hin) as (o & Ho & Hcor & _).
      assert (o = Correct) by now apply Hcor. now subst o.
Qed.

(** A negated type with one other type in the schema, in the orientation
    of the occurrence. *)
Lemma C7_witness :
  exists rel v,
    detect_relationships "MATCH (a:A)-[:!Z]->(b:B)"
      (process_schema "(A, T1, B), (A, Z, B)") PATTERN_CONFIG = Ok [rel]
    /\ multi_labels rel = ["T1"]
    /\ find_relationship_in_schema rel (process_schema "(A, T1, B), (A, Z, B)")
       = Ok v
    /\ schema_match v = Some true /\ is_correct v = Some true.
Proof.
  let x := eval vm_compute in
    (detect_relationships "MATCH (a:A)-[:!Z]->(b:B)"
       (process_schema "(A, T1, B), (A, Z, B)") PATTERN_CONFIG) in
  match x with
  | Ok [?r] => pose (rel := r)
  end.
  assert (Htr : transform_negated_to_multi_label
                  rel (process_schema "(A, T1, B), (A, Z, B)") = Ok rel)
    by (vm_compute; reflexivity).
  destruct (C7_negated_type_expansion _ _ _ Htr) as (_ & _ & _ & H).
  destruct H as [_ H].
  - change (process_schema "(A, T1, B), (A, Z, B)")
      with [["A"; "T1"; "B"]; ["A"; "Z"; "B"]].
    repeat constructor; eexists _, _, _; (split; [reflexivity | discriminate]).
  - reflexivity.
  - reflexivity.
  - reflexivity.
  - destruct H as (v & Hv & Hs & Hc).
    + exists "T1". split; [vm_compute; discriminate | ].
      exists "A", "B". split; [vm_compute; auto | ]. split; now right.
    + exists rel, v. split; [vm_compute; reflexivity | ].
      split; [reflexivity | auto].
Defined.

(** The schema has the type [T1], other than the excluded [Z], between the
    labels of the occurrence (the other way round), and yet the occurrence
    is unmatched and the query rejected: the later candidate [T2], which
    matches nothing, overwrites the match.  Besides, a type carried by two
    entries is listed twice, and an undirected negated occurrence matches
    although the schema has nothing between its labels. *)
Lemma C7_counterexample :
  (exists rel v,
      detect_relationships "MATCH (a:A)-[:!Z]->(b:B)"
        (process_schema "(B, T1, A), (X, T2, Y)") PATTERN_CONFIG = Ok [rel]
      /\ is_negated_label rel = true
      /\ excluded_type rel = "Z"
      /\ multi_labels rel = ["T1"; "T2"]
      /\ fits (process_schema "(B, T1, A), (X, T2, Y)")
              (reversed (oriented rel "T1"))
      /\ find_relationship_in_schema rel (process_schema "(B, T1, A), (X, T2, Y)")
         = Ok v
      /\ schema_match v = Some false
      /\ correct "MATCH (a:A)-[:!Z]->(b:B)" "(B, T1, A), (X, T2, Y)"
         = Ok EmptyString)
  /\ (exists rel,
         detect_relationships "MATCH (a:A)-[:!Z]->(b:B)"
           (process_schema "(A, T, B), (C, T, D)") PATTERN_CONFIG = Ok [rel]
         /\ multi_labels rel = ["T"; "T"])
  /\ (exists rel v,
         detect_relationships "MATCH (a:A)-[:!Z]-(b:B)"
           (process_schema "(X, T, Y)") PATTERN_CONFIG = Ok [rel]
         /\ find_relationship_in_schema rel (process_schema "(X, T, Y)") = Ok v
         /\ schema_match v = Some true
         /\ forall t, ~ fits (process_schema "(X, T, Y)") (oriented rel t)
                      /\ ~ fits (process_schema "(X, T, Y)")
                                (reversed (oriented rel t))).
Proof.
  split; [ | split].
  - eexists _, _. split; [vm_compute; reflexivity | ].
    repeat split; try (vm_compute; reflexivity).
    exists "B", "A". split; [vm_compute; auto | ]. split; now right.
  - eexists. split; vm_compute; reflexivity.
  - eexists _, _. split; [vm_compute; reflexivity | ].
    split; [vm_compute; reflexivity | ]. split; [reflexivity | ].
    intros t. split; intros (s & o & Hin & Hs & Ho);
      vm_compute in Hin; destruct Hin as [Hin | []]; inversion Hin; subst;
      destruct Hs as [Hs | Hs]; discriminate.
Qed.

(** ** C8: running the corrector twice *)

(** C8.  The query below has a relationship pattern inside a string
    literal.  The first run turns the outer relationship round and, with
    it, the arrow inside the literal; the second run turns the arrow inside
    the literal back.  The result of the first run is not empty and is
    not a fixed point. *)
Lemma C8_second_run_changes_the_text :
  correct "MATCH (:C {k:'(:A)-->(:B)'})-->(:D)" "(A, R, B), (D, S, C)"
  = Ok "MATCH (:C {k:'(:A)<--(:B)'})<--(:D)"
  /\ correct "MATCH (:C {k:'(:A)<--(:B)'})<--(:D)" "(A, R, B), (D, S, C)"
     = Ok "MATCH (:C {k:'(:A)-->(:B)'})<--(:D)"
  /\ "MATCH (:C {k:'(:A)-->(:B)'})<--(:D)"
     <> "MATCH (:C {k:'(:A)<--(:B)'})<--(:D)".
Proof. repeat split; try (vm_compute; reflexivity). discriminate. Qed.

(** ** C9: no occurrence, no change *)

(** C9.  For every query text in which the scanner finds no relationship
    occurrence, [correct] returns the text unchanged and does not fail,
    whatever the schema text is (well formed or not). *)
Theorem C9_no_occurrence_returns_text text schema_text :
  finditer (relationship_pattern PATTERN_CONFIG) text = [] ->
  correct text schema_text = Ok text.
Proof.
  intros H. unfold correct, fix_cypher_relationship_directions,
    detect_relationships.
  rewrite H. reflexivity.
Qed.

(** A text whose only relationship-like fragment lacks its second hyphen,
    with a schema text that is not even a list of triples. *)
Lemma C9_witness :
  finditer (relationship_pattern PATTERN_CONFIG)
           "MATCH (a:Person)-[r:KNOWS]>(b) RETURN a" = []
  /\ correct "MATCH (a:Person)-[r:KNOWS]>(b) RETURN a" "(Person, KNOWS"
     = Ok "MATCH (a:Person)-[r:KNOWS]>(b) RETURN a".
Proof.
  split; [vm_compute; reflexivity | ].
  apply C9_no_occurrence_returns_text. vm_compute. reflexivity.
Defined.

(** ** C10: the label of a node without inline label *)

Lemma node_label_entries_app before rest :
  forall acc,
    exists acc',
      node_label_entries before acc = Ok acc'
      /\ node_label_entries (before ++ rest) acc = node_label_entries rest acc'.
Proof.
  induction before as [ | node before IH]; intros acc; simpl; [eauto | ].
  unfold group_str. destruct (group node "node1_labels") as [labels | ]; simpl.
  - destruct (truthy labels); simpl; apply IH.
  - apply IH.
Qed.

Lemma node_label_entries_other key :
  forall nodes acc m,
    Forall (fun n => truthy_opt (group n "node1_labels") = true ->
                     group n "node1_var_name" <> key) nodes ->
    node_label_entries nodes acc = Ok m ->
    m !! key = acc !! key.
Proof.
  induction nodes as [ | node nodes IH]; intros acc m Hall H; simpl in H.
  - now inversion H.
  - inversion Hall as [ | x xs Hnode Hrest]; subst.
    unfold group_str in H.
    destruct (group node "node1_labels") as [labels | ] eqn:E; simpl in H.
    + destruct (truthy labels) eqn:Et; simpl in H.
      * rewrite (IH _ _ Hrest H). apply lookup_insert_ne. now apply Hnode.
      * now apply IH.
    + now apply IH.
Qed.

(** The last labelled declaration of a variable name decides its entry. *)
Lemma node_label_entries_last before node after labels acc m :
  group node "node1_labels" = Some labels -> labels <> EmptyString ->
  Forall (fun n => truthy_opt (group n "node1_labels") = true ->
                   group n "node1_var_name" <> group node "node1_var_name")
         after ->
  node_label_entries (before ++ node :: after) acc = Ok m ->
  m !! group node "node1_var_name" = Some (first_label labels).
Proof.
  intros Hl Hne Hafter H.
  destruct (node_label_entries_app before (node :: after) acc) as (acc' & _ & E).
  rewrite E in H. simpl in H. unfold group_str in H. rewrite Hl in H. simpl in H.
  rewrite (proj2 (truthy_true labels) Hne) in H. simpl in H.
  rewrite (node_label_entries_other _ _ _ _ Hafter H).
  apply lookup_insert_eq.
Qed.

Lemma detect_node_labels_lookup obj text cfg n1 n2 :
  detect_node_labels obj text cfg = Ok (n1, n2) ->
  exists l1 l2 m,
    group obj "node1_labels" = Some l1
    /\ group obj "node2_labels" = Some l2
    /\ node_label_map text cfg = Ok m
    /\ label1 n1 = (if String.eqb (first_label l1) EmptyString
                    then get_label m (group obj "node1_var_name")
                    else first_label l1)
    /\ label1 n2 = (if String.eqb (first_label l2) EmptyString
                    then get_label m (group obj "node2_var_name")
                    else first_label l2).
Proof.
  unfold detect_node_labels, group_str. intros H.
  destruct (group obj "node1_labels") as [l1 | ]; [ | discriminate].
  destruct (group obj "node2_labels") as [l2 | ]; [ | discriminate].
  simpl in H. apply rbind_Ok in H. destruct H as (m & Hm & H).
  exists l1, l2, m. inversion H; subst; clear H.
  repeat split; try reflexivity; try exact Hm;
    match goal with |- context [if ?b then _ else _] => destruct b end;
    reflexivity.
Qed.

(** C10.  When a node of an occurrence has no inline label (the first
    label read off its label group is empty), its primary label is the
    entry of its variable name in a map built from the node matches of the
    whole text, in which the last match with a non-empty label group and
    that variable name decides; the empty variable name is a key like any
    other, so that an anonymous node without label takes the first label of
    the last labelled anonymous node of the text. *)
Theorem C10_label_of_unlabelled_node
  text obj n1 n2 before node after labels :
  detect_node_labels obj text PATTERN_CONFIG = Ok (n1, n2) ->
  finditer (node1_pattern PATTERN_CONFIG) text = before ++ node :: after ->
  group node "node1_labels" = Some labels -> labels <> EmptyString ->
  Forall (fun n => truthy_opt (group n "node1_labels") = true ->
                   group n "node1_var_name" <> group node "node1_var_name")
         after ->
  (forall l1,
      group obj "node1_labels" = Some l1 -> first_label l1 = EmptyString ->
      group obj "node1_var_name" = group node "node1_var_name" ->
      label1 n1 = first_label labels)
  /\ (forall l2,
         group obj "node2_labels" = Some l2 -> first_label l2 = EmptyString ->
         group obj "node2_var_name" = group node "node1_var_name" ->
         label1 n2 = first_label labels).
Proof.
  intros Hdet Hnodes Hl Hne Hafter.
  destruct (detect_node_labels_lookup _ _ _ _ _ Hdet)
    as (l1 & l2 & m & H1 & H2 & Hm & E1 & E2).
  unfold node_label_map in Hm. rewrite Hnodes in Hm.
  pose proof (node_label_entries_last _ _ _ _ _ _ Hl Hne Hafter Hm) as Hkey.
  split.
  - intros l1' Hl1 Hf Hv. rewrite H1 in Hl1. inversion Hl1; subst l1'.
    rewrite E1, Hf. simpl. unfold get_label. now rewrite Hv, Hkey.
  - intros l2' Hl2 Hf Hv. rewrite H2 in Hl2. inversion Hl2; subst l2'.
    rewrite E2, Hf. simpl. unfold get_label. now rewrite Hv, Hkey.
Qed.

(** The anonymous node of the only occurrence takes the label of the last
    labelled anonymous node, [(:Person)], not of the earlier [(:Dog)] or
    [(:City)] and not of the later [(x:Cat)]. *)
Lemma C10_witness :
  exists obj n1 n2,
    finditer (relationship_pattern PATTERN_CONFIG)
             "MATCH (:Dog), ()-[:KNOWS]->(:City), (:Person), (x:Cat)" = [obj]
    /\ detect_node_labels obj
         "MATCH (:Dog), ()-[:KNOWS]->(:City), (:Person), (x:Cat)" PATTERN_CONFIG
       = Ok (n1, n2)
    /\ group obj "node1" = Some "()"
    /\ label1 n1 = "Person".
Proof.
  let x := eval vm_compute in
    (finditer (relationship_pattern PATTERN_CONFIG)
       "MATCH (:Dog), ()-[:KNOWS]->(:City), (:Person), (x:Cat)") in
  match x with
  | [?o] => pose (obj := o)
  end.
  let x := eval vm_compute in
    (detect_node_labels obj
       "MATCH (:Dog), ()-[:KNOWS]->(:City), (:Person), (x:Cat)" PATTERN_CONFIG) in
  match x with
  | Ok (?a, ?b) => pose (n1 := a); pose (n2 := b)
  end.
  let x := eval vm_compute in
    (finditer (node1_pattern PATTERN_CONFIG)
       "MATCH (:Dog), ()-[:KNOWS]->(:City), (:Person), (x:Cat)") in
  match x with
  | [?a; ?b; ?c; ?d; ?e] =>
      pose (before := [a; b; c]); pose (node := d); pose (after := [e])
  end.
  assert (Hdet : detect_node_labels obj
            "MATCH (:Dog), ()-[:KNOWS]->(:City), (:Person), (x:Cat)"
            PATTERN_CONFIG = Ok (n1, n2)) by (vm_compute; reflexivity).
  destruct (C10_label_of_unlabelled_node
              "MATCH (:Dog), ()-[:KNOWS]->(:City), (:Person), (x:Cat)"
              obj n1 n2 before node after ":Person" Hdet) as [H _].
  - vm_compute. reflexivity.
  - reflexivity.
  - discriminate.
  - constructor; [ | constructor]. intros _. vm_compute. discriminate.
  - exists obj, n1, n2. split; [vm_compute; reflexivity | ].
    split; [exact Hdet | ]. split; [reflexivity | ].
    apply (H EmptyString); reflexivity.
Defined.

(** * Further properties of the code *)

(** ** More on strings *)

Lemma has_char_append x (a b : string) :
  has_char x (a ++ b) = has_char x a || has_char x b.
Proof.
  induction a as [ | c a IH]; simpl; [reflexivity | ].
  now rewrite IH, orb_assoc.
Qed.

Lemma plain_has_char x s :
  plain s = true -> Py.mem x " ,()" = true -> has_char x s = false.
Proof.
  intros Hp Hx. induction s as [ | c s IH]; simpl in *; [reflexivity | ].
  apply andb_true_iff in Hp. destruct Hp as [Hc Hs].
  rewrite (IH Hs), orb_false_r.
  destruct (Ascii.eqb_spec c x) as [-> | Hne]; [ | reflexivity].
  rewrite Hx in Hc. discriminate.
Qed.

Lemma plain_first_char s c :
  plain s = true -> first_char s = Some c -> Py.mem c " ,()" = false.
Proof.
  destruct s as [ | d s]; simpl; [discriminate | ].
  intros Hp E. inversion E; subst. apply andb_true_iff in Hp.
  destruct Hp as [Hc _]. now apply negb_true_iff in Hc.
Qed.

Lemma last_char_Some c (s : string) : exists e, last_char (String c s) = Some e.
Proof.
  revert c. induction s as [ | d s IH]; intros c; [now exists c | ].
  destruct (IH d) as [e He]. exists e. exact He.
Qed.

Lemma last_char_cons c (s : string) :
  last_char (String c s) = match last_char s with
                           | Some d => Some d
                           | None => Some c
                           end.
Proof.
  destruct s as [ | d s]; [reflexivity | ].
  destruct (last_char_Some d s) as [e He].
  change (last_char (String c (String d s))) with (last_char (String d s)).
  now rewrite He.
Qed.

Lemma last_char_append (a b : string) :
  last_char (a ++ b) = match last_char b with
                       | Some c => Some c
                       | None => last_char a
                       end.
Proof.
  induction a as [ | c a IH].
  - simpl. now destruct (last_char b).
  - change (String c a ++ b)%string with (String c (a ++ b)).
    rewrite !last_char_cons, IH. now destruct (last_char b).
Qed.

Lemma plain_last_char s c :
  plain s = true -> last_char s = Some c -> Py.mem c " ,()" = false.
Proof.
  induction s as [ | d s IH]; [discriminate | ].
  intros Hp E. simpl in Hp. apply andb_true_iff in Hp. destruct Hp as [Hd Hs].
  destruct s as [ | e s'].
  - inversion E; subst. now apply negb_true_iff in Hd.
  - apply IH; [exact Hs | exact E].
Qed.

(** [s.replace(x, "")] for a one-character [x] drops every [x]. *)
Lemma replace_char_filter x (s : string) :
  Py.replace s (String x EmptyString) EmptyString
  = Py.filter (fun c => negb (Ascii.eqb c x)) s.
Proof.
  unfold Py.replace. induction s as [ | c s IH]; [reflexivity | ].
  cbn [Py.replace_from Py.filter]. simpl String.prefix.
  destruct (ascii_dec x c) as [-> | Hne].
  - rewrite Ascii.eqb_refl. simpl. destruct s; exact IH.
  - assert (E : Ascii.eqb c x = false) by (apply Ascii.eqb_neq; congruence).
    rewrite E. simpl. now rewrite IH.
Qed.

Lemma filter_append p (a b : string) :
  Py.filter p (a ++ b) = (Py.filter p a ++ Py.filter p b)%string.
Proof.
  induction a as [ | c a IH]; simpl; [reflexivity | ].
  rewrite IH. now destruct (p c).
Qed.

Lemma filter_no_char x (s : string) :
  has_char x s = false -> Py.filter (fun c => negb (Ascii.eqb c x)) s = s.
Proof.
  induction s as [ | c s IH]; simpl; [reflexivity | ].
  intros H. apply orb_false_iff in H. destruct H as [Hc Hs].
  rewrite Hc. simpl. now rewrite IH.
Qed.

Lemma lstrip_keep chars (s : string) :
  (forall c, first_char s = Some c -> Py.mem c chars = false) ->
  Py.lstrip chars s = s.
Proof.
  destruct s as [ | c s]; simpl; [reflexivity | ].
  intros H. now rewrite (H c eq_refl).
Qed.

Lemma rstrip_last chars c (s : string) :
  Py.mem c chars = true ->
  Py.rstrip chars (s ++ String c EmptyString) = Py.rstrip chars s.
Proof.
  intros Hc. induction s as [ | d s IH]; simpl.
  - now rewrite Hc.
  - now rewrite IH.
Qed.

Lemma rstrip_keep chars (s : string) :
  (forall c, last_char s = Some c -> Py.mem c chars = false) ->
  Py.rstrip chars s = s.
Proof.
  induction s as [ | d s IH]; [reflexivity | ].
  intros H. cbn [Py.rstrip]. destruct s as [ | e s'].
  - simpl. now rewrite (H d eq_refl).
  - rewrite IH by exact H. reflexivity.
Qed.

(** *** [str.split] *)

Lemma split_from_skip sep cur (w t : string) :
  Py.split_from sep (String.length w) cur (w ++ t) = Py.split_from sep 0 cur t.
Proof. induction w as [ | c w IH]; simpl; [reflexivity | exact IH]. Qed.

Lemma split_hit sep cur (t : string) :
  sep <> EmptyString ->
  Py.split_from sep 0 cur (sep ++ t) = cur :: Py.split_from sep 0 EmptyString t.
Proof.
  intros Hne. destruct sep as [ | c sep']; [congruence | ].
  change (String c sep' ++ t)%string with (String c (sep' ++ t)).
  cbn [Py.split_from].
  change (String c (sep' ++ t)) with (String c sep' ++ t)%string.
  rewrite prefix_append.
  replace (String.length (String c sep') - 1) with (String.length sep')
    by (simpl; lia).
  now rewrite split_from_skip.
Qed.

Lemma split_pass x sep' (t : string) :
  forall (s cur : string),
    has_char x s = false ->
    Py.split_from (String x sep') 0 cur (s ++ t)
    = Py.split_from (String x sep') 0 (cur ++ s) t.
Proof.
  induction s as [ | c s IH]; intros cur H.
  - now rewrite append_nil_r.
  - simpl in H. apply orb_false_iff in H. destruct H as [Hc Hs].
    change (String c s ++ t)%string with (String c (s ++ t)).
    cbn [Py.split_from]. simpl String.prefix.
    destruct (ascii_dec x c) as [-> | Hne].
    + rewrite Ascii.eqb_refl in Hc. discriminate.
    + rewrite IH by exact Hs. rewrite append_assoc. reflexivity.
Qed.

(** A text without the first character of the separator is one field. *)
Lemma split_one x sep' (s : string) :
  has_char x s = false -> Py.split s (String x sep') = [s].
Proof.
  intros H. unfold Py.split.
  rewrite <- (append_nil_r s) at 1. now rewrite split_pass.
Qed.

(** The first field ends at the first separator. *)
Lemma split_cons x sep' (s t : string) :
  has_char x s = false ->
  Py.split (s ++ String x sep' ++ t) (String x sep')
  = s :: Py.split t (String x sep').
Proof.
  intros H. unfold Py.split. rewrite split_pass by exact H.
  now rewrite split_hit.
Qed.

(** ** [process_schema] *)

Lemma unspace_triple t :
  plain_triple t ->
  Py.filter (fun c => negb (Ascii.eqb c " ")) (render_triple t)
  = ("(" ++ bare_triple t ++ ")")%string.
Proof.
  destruct t as [[a b] c]. intros (Ha & Hb & Hc).
  unfold render_triple, bare_triple. rewrite !filter_append.
  rewrite (filter_no_char " " a), (filter_no_char " " b),
    (filter_no_char " " c) by (apply plain_has_char; auto).
  simpl. repeat (rewrite append_assoc; simpl). reflexivity.
Qed.

Lemma unspace_schema ts :
  ts <> [] -> Forall plain_triple ts ->
  Py.filter (fun c => negb (Ascii.eqb c " ")) (render_schema ts)
  = ("(" ++ bare_schema ts ++ ")")%string.
Proof.
  intros Hne Hall. induction Hall as [ | t ts Ht Hall IH]; [congruence | ].
  destruct ts as [ | t' ts'].
  - simpl. now apply unspace_triple.
  - change (render_schema (t :: t' :: ts'))
      with (render_triple t ++ ", " ++ render_schema (t' :: ts'))%string.
    change (bare_schema (t :: t' :: ts'))
      with (bare_triple t ++ "),(" ++ bare_schema (t' :: ts'))%string.
    rewrite !filter_append, unspace_triple, IH by (auto; discriminate).
    simpl. repeat (rewrite append_assoc; simpl). reflexivity.
Qed.

Lemma bare_triple_no_paren t :
  plain_triple t -> has_char ")" (bare_triple t) = false.
Proof.
  destruct t as [[a b] c]. intros (Ha & Hb & Hc). unfold bare_triple.
  rewrite !has_char_append.
  rewrite (plain_has_char ")" a), (plain_has_char ")" b),
    (plain_has_char ")" c) by auto.
  reflexivity.
Qed.

Lemma bare_triple_first t c :
  plain_triple t -> first_char (bare_triple t ++ c) <> Some "("%char.
Proof.
  destruct t as [[a b] d]. intros (Ha & _ & _). unfold bare_triple.
  rewrite !append_assoc, first_char_append.
  destruct (first_char a) as [x | ] eqn:E; [ | discriminate].
  intros Hx. inversion Hx; subst.
  now pose proof (plain_first_char _ _ Ha E).
Qed.

Lemma bare_triple_last t :
  plain_triple t ->
  exists x, last_char (bare_triple t) = Some x /\ x <> ")"%char.
Proof.
  destruct t as [[a b] c]. intros (_ & _ & Hc). unfold bare_triple.
  rewrite !last_char_append.
  destruct (last_char c) as [x | ] eqn:E.
  - exists x. split; [reflexivity | ]. intros ->.
    now pose proof (plain_last_char _ _ Hc E).
  - simpl. eexists. split; [reflexivity | discriminate].
Qed.

Lemma bare_schema_first ts c :
  ts <> [] -> Forall plain_triple ts ->
  first_char (bare_schema ts ++ c) <> Some "("%char.
Proof.
  intros Hne Hall. destruct Hall as [ | t ts Ht Hall]; [congruence | ].
  destruct ts as [ | t' ts'].
  - now apply bare_triple_first.
  - change (bare_schema (t :: t' :: ts'))
      with (bare_triple t ++ "),(" ++ bare_schema (t' :: ts'))%string.
    rewrite append_assoc. now apply bare_triple_first.
Qed.

Lemma bare_schema_last ts :
  ts <> [] -> Forall plain_triple ts ->
  exists x, last_char (bare_schema ts) = Some x /\ x <> ")"%char.
Proof.
  intros Hne Hall. induction Hall as [ | t ts Ht Hall IH]; [congruence | ].
  destruct ts as [ | t' ts'].
  - now apply bare_triple_last.
  - change (bare_schema (t :: t' :: ts'))
      with (bare_triple t ++ "),(" ++ bare_schema (t' :: ts'))%string.
    destruct IH as (x & Hx & Hne'); [discriminate | ].
    exists x. rewrite !last_char_append, Hx. auto.
Qed.

Lemma split_bare_schema ts :
  ts <> [] -> Forall plain_triple ts ->
  Py.split (bare_schema ts) "),(" = map bare_triple ts.
Proof.
  intros Hne Hall. induction Hall as [ | t ts Ht Hall IH]; [congruence | ].
  destruct ts as [ | t' ts'].
  - simpl bare_schema. simpl map.
    apply (split_one ")" ",("). now apply bare_triple_no_paren.
  - change (bare_schema (t :: t' :: ts'))
      with (bare_triple t ++ "),(" ++ bare_schema (t' :: ts'))%string.
    rewrite (split_cons ")" ",(") by now apply bare_triple_no_paren.
    rewrite IH by discriminate. reflexivity.
Qed.

Lemma split_bare_triple t :
  plain_triple t -> Py.split (bare_triple t) "," = as_item t.
Proof.
  destruct t as [[a b] c]. intros (Ha & Hb & Hc). unfold bare_triple, as_item.
  rewrite (split_cons "," EmptyString) by (apply plain_has_char; auto).
  rewrite (split_cons "," EmptyString) by (apply plain_has_char; auto).
  rewrite (split_one "," EmptyString) by (apply plain_has_char; auto).
  reflexivity.
Qed.

(** X1.  [process_schema] reads the documented form back: for a non-empty
    list of triples whose fields have no space, comma or parenthesis, the
    text [(a, b, c), (d, e, f), ...] is parsed into exactly these triples,
    in the same order. *)
Theorem X1_process_schema_reads_documented_form ts :
  ts <> [] -> Forall plain_triple ts ->
  process_schema (render_schema ts) = map as_item ts.
Proof.
  intros Hne Hall. unfold process_schema.
  rewrite replace_char_filter, unspace_schema by assumption.
  change ("(" ++ bare_schema ts ++ ")")%string
    with (String "(" (bare_schema ts ++ ")")).
  cbn [Py.lstrip Py.mem]. simpl Ascii.eqb. cbv iota. simpl orb. cbv iota.
  rewrite lstrip_keep.
  2:{ intros c Hc. destruct (Ascii.eqb_spec c "(") as [-> | Hn].
      - exfalso. revert Hc. now apply bare_schema_first.
      - simpl. apply Ascii.eqb_neq in Hn. now rewrite Hn. }
  rewrite rstrip_last by reflexivity.
  rewrite rstrip_keep.
  2:{ intros c Hc. destruct (bare_schema_last ts Hne Hall) as (x & Hx & Hn).
      rewrite Hx in Hc. inversion Hc; subst. simpl.
      apply Ascii.eqb_neq in Hn. now rewrite Hn. }
  rewrite split_bare_schema by assumption.
  rewrite map_map. apply map_ext_in. intros t Ht.
  apply split_bare_triple.
  now apply (proj1 (List.Forall_forall _ _) Hall).
Qed.

Lemma X1_witness :
  process_schema "(Person, KNOWS, Person), (Person, WORKS_AT, Organization)"
  = [["Person"; "KNOWS"; "Person"]; ["Person"; "WORKS_AT"; "Organization"]].
Proof.
  apply (X1_process_schema_reads_documented_form
           [("Person", "KNOWS", "Person");
            ("Person", "WORKS_AT", "Organization")]).
  - discriminate.
  - repeat constructor.
Defined.

Lemma split_from_not_nil sep :
  forall s skip cur, Py.split_from sep skip cur s <> [].
Proof.
  induction s as [ | c s IH]; intros skip cur; simpl.
  - discriminate.
  - destruct skip as [ | k]; [ | apply IH].
    destruct sep as [ | a sep'].
    + discriminate.
    + destruct (ascii_dec a c); [ | apply IH].
      destruct (String.prefix sep' s); [discriminate | apply IH].
Qed.

Lemma column_0_total sch :
  Forall (fun item : list string => item <> []) sch ->
  exists c, column 0 sch = Ok c /\ length c = length sch.
Proof.
  unfold column. induction 1 as [ | item sch Hitem _ IH]; simpl; [eauto | ].
  destruct item as [ | f item]; [congruence | ]. simpl.
  destruct IH as (c & -> & Hlen). simpl. eexists. split; [reflexivity | ].
  simpl. now rewrite Hlen.
Qed.

(** X2.  Whatever the schema text is (empty, without parentheses, with
    empty groups), [process_schema] returns at least one entry and every
    entry has at least one field: reading the first field of the entries,
    [item[0]], never raises. *)
Theorem X2_process_schema_first_field schema_text :
  process_schema schema_text <> []
  /\ Forall (fun item => item <> []) (process_schema schema_text)
  /\ exists c, column 0 (process_schema schema_text) = Ok c /\ c <> [].
Proof.
  assert (Hne : process_schema schema_text <> []).
  { unfold process_schema. intros H. apply map_eq_nil in H.
    revert H. apply split_from_not_nil. }
  assert (Hitems : Forall (fun item => item <> []) (process_schema schema_text)).
  { unfold process_schema. apply List.Forall_forall. intros item Hin.
    apply in_map_iff in Hin. destruct Hin as (g & <- & _).
    apply split_from_not_nil. }
  split; [exact Hne | ]. split; [exact Hitems | ].
  destruct (column_0_total _ Hitems) as (c & Hc & Hlen).
  exists c. split; [exact Hc | ].
  intros ->. destruct (process_schema schema_text); [congruence | discriminate].
Qed.

(** ** The schema is used as a set *)

(** A column is there exactly when every entry is long enough. *)
Lemma column_view i sch :
  column i sch
  = if forallb (fun item => Nat.ltb i (length item)) sch
    then Ok (map (fun item => nth i item EmptyString) sch)
    else Raise IndexError.
Proof.
  unfold column. induction sch as [ | item sch IH]; [reflexivity | ].
  cbn [rmapM forallb map]. rewrite IH. unfold field.
  destruct (Nat.ltb_spec i (length item)) as [Hlt | Hge].
  - destruct (nth_error item i) as [x | ] eqn:E.
    + rewrite (nth_error_nth _ _ EmptyString E). simpl.
      now destruct (forallb _ sch).
    + apply nth_error_None in E. lia.
  - apply nth_error_None in Hge. rewrite Hge. reflexivity.
Qed.

Lemma forallb_same {A} (f : A -> bool) (l l' : list A) :
  (forall x, In x l <-> In x l') -> forallb f l = forallb f l'.
Proof.
  intros H. destruct (forallb f l) eqn:E, (forallb f l') eqn:E';
    try reflexivity.
  - rewrite forallb_forall in E. exfalso.
    assert (forallb f l' = true) by (apply forallb_forall; intros x Hx;
                                     apply E, H, Hx).
    congruence.
  - rewrite forallb_forall in E'. exfalso.
    assert (forallb f l = true) by (apply forallb_forall; intros x Hx;
                                    apply E', H, Hx).
    congruence.
Qed.

Lemma elem_same {A} `{EqDecision A} (x : A) (l l' : list A) :
  (forall y, In y l <-> In y l') -> elem x l = elem x l'.
Proof.
  intros H. destruct (elem x l') eqn:E.
  - apply elem_true. apply H. now apply elem_true.
  - apply elem_false. intros Hin. apply elem_false in E. apply E, H, Hin.
Qed.

Lemma In_map_same {A B} (f : A -> B) (l l' : list A) :
  (forall x, In x l <-> In x l') ->
  forall y, In y (map f l) <-> In y (map f l').
Proof.
  intros H y. rewrite !in_map_iff.
  split; intros (x & E & Hx); exists x; (split; [exact E | now apply H]).
Qed.

Section same_schema.

Variables sch sch' : schema.
Hypothesis Hsame : same_entries sch sch'.

Lemma column_same_test i :
  forallb (fun item => Nat.ltb i (length item)) sch
  = forallb (fun item => Nat.ltb i (length item)) sch'.
Proof. apply forallb_same, Hsame. Qed.

Lemma lookup_pair_same x i j i' j' rel :
  lookup_pair x i j i' j' rel sch = lookup_pair x i j i' j' rel sch'.
Proof.
  unfold lookup_pair. rewrite !column_view, !column_same_test.
  destruct (forallb _ sch'); [ | reflexivity].
  destruct (forallb _ sch'); [ | reflexivity]. cbn [rbind].
  rewrite !zip_columns.
  rewrite (elem_same x _ _ (In_map_same _ _ _ Hsame)).
  destruct (elem x _); [reflexivity | ].
  destruct (forallb _ sch'); [ | reflexivity].
  destruct (forallb _ sch'); [ | reflexivity]. cbn [rbind].
  rewrite !zip_columns.
  now rewrite (elem_same x _ _ (In_map_same _ _ _ Hsame)).
Qed.

Lemma lookup_one_same x i i' rel :
  lookup_one x i i' rel sch = lookup_one x i i' rel sch'.
Proof.
  unfold lookup_one. rewrite !column_view, !column_same_test.
  destruct (forallb _ sch'); [ | reflexivity]. cbn [rbind].
  rewrite (elem_same x _ _ (In_map_same _ _ _ Hsame)).
  destruct (elem x _); [reflexivity | ].
  destruct (forallb _ sch'); [ | reflexivity]. cbn [rbind].
  now rewrite (elem_same x _ _ (In_map_same _ _ _ Hsame)).
Qed.

Lemma find_single_same rel :
  find_single_label_relationship_in_schema rel sch
  = find_single_label_relationship_in_schema rel sch'.
Proof.
  unfold find_single_label_relationship_in_schema.
  destruct (is_unfixable rel); [reflexivity | ].
  destruct (is_complete rel).
  - unfold find_complete_tup_in_schema.
    now rewrite !(elem_same _ sch sch' Hsame).
  - unfold find_partial_tup_in_schema.
    destruct (make_left_to_right rel) as [[a b] c].
    destruct (truthy a), (truthy b), (truthy c);
      try apply lookup_pair_same; try apply lookup_one_same;
      try reflexivity.
    rewrite !column_view, column_same_test.
    destruct (forallb _ sch'); [ | reflexivity]. cbn [rbind].
    now rewrite (elem_same b _ _ (In_map_same _ _ _ Hsame)).
Qed.

Lemma try_labels_same :
  forall labels rel, try_labels labels rel sch = try_labels labels rel sch'.
Proof.
  induction labels as [ | l labels IH]; intros rel; [reflexivity | ].
  cbn [try_labels]. rewrite find_single_same.
  destruct (find_single_label_relationship_in_schema _ sch') as [r | e];
    [ | reflexivity].
  cbn [rbind]. destruct (bool_decide _); [reflexivity | apply IH].
Qed.

End same_schema.

(** X3.  The matcher uses the schema as a set: two schemas with the same
    entries, in whatever order and however often repeated, give every
    relationship the same result, be it a verdict or the index error of a
    short entry. *)
Theorem X3_schema_order_and_repetition sch sch' rel :
  same_entries sch sch' ->
  find_relationship_in_schema rel sch = find_relationship_in_schema rel sch'.
Proof.
  intros H. unfold find_relationship_in_schema. now apply try_labels_same.
Qed.

Lemma X3_witness :
  exists rel,
    detect_relationships "MATCH (p:Person)<-[:WORKS_AT]-(o:Organization)"
      [] PATTERN_CONFIG = Ok [rel]
    /\ find_relationship_in_schema rel
         [["Person"; "KNOWS"; "Person"]; ["Person"; "WORKS_AT"; "Organization"]]
       = find_relationship_in_schema rel
           [["Person"; "WORKS_AT"; "Organization"]; ["Person"; "KNOWS"; "Person"];
            ["Person"; "WORKS_AT"; "Organization"]].
Proof.
  eexists. split; [vm_compute; reflexivity | ].
  apply X3_schema_order_and_repetition.
  intros item. simpl. tauto.
Defined.

(** ** What the verdict means on a schema of triples *)











(** ** Mirrored occurrences and larger schemas *)









(** ** Where the scanner looks *)

Lemma rmatch_ahead_rest r s g rest g' :
  rmatch (Ahead r) s g done = Some (rest, g') -> rest = s.
Proof.
  simpl. destruct (rmatch r s g done) as [[s1 g1] | ]; [ | discriminate].
  unfold done. now inversion 1.
Qed.

Lemma finditer_from_ahead r :
  forall s pos,
    map m_start (finditer_from (Ahead r) pos 0 s)
    = List.filter (fun p => matches_at (Ahead r) s (p - pos))
        (List.seq pos (S (String.length s)))
    /\ Forall (fun m => m_len m = 0) (finditer_from (Ahead r) pos 0 s).
Proof.
  induction s as [ | c s IH]; intros pos.
  - cbn [finditer_from String.length List.seq List.filter].
    unfold matches_at. rewrite Nat.sub_diag. cbn [Py.drop].
    destruct (rmatch (Ahead r) EmptyString [] done) as [[rest g] | ] eqn:E.
    + apply rmatch_ahead_rest in E. subst rest.
      split; [reflexivity | repeat constructor].
    + split; [reflexivity | constructor].
  - destruct (IH (S pos)) as [IHs IHl].
    assert (Hshift :
      List.filter (fun p => matches_at (Ahead r) (String c s) (p - pos))
        (List.seq (S pos) (S (String.length s)))
      = List.filter (fun p => matches_at (Ahead r) s (p - S pos))
          (List.seq (S pos) (S (String.length s)))).
    { apply List.filter_ext_in. intros p Hp. apply List.in_seq in Hp.
      unfold matches_at.
      replace (p - pos) with (S (p - S pos)) by lia. reflexivity. }
    cbn [finditer_from].
    change (List.seq pos (S (String.length (String c s))))
      with (pos :: List.seq (S pos) (S (String.length s))).
    cbn [List.filter]. rewrite Hshift.
    unfold matches_at at 1. rewrite Nat.sub_diag. cbn [Py.drop].
    destruct (rmatch (Ahead r) (String c s) [] done) as [[rest g] | ] eqn:E.
    + apply rmatch_ahead_rest in E. subst rest.
      rewrite Nat.sub_diag. cbn [Nat.sub map m_start].
      split; [now rewrite IHs | constructor; [reflexivity | exact IHl]].
    + split; [exact IHs | exact IHl].
Qed.

(** X7. The scanner tries the relationship pattern at every position of
    the text, the end included, and yields one occurrence for each
    position where it matches, in increasing order; an occurrence consumes
    nothing, so that occurrences sharing a node are all found. *)
Theorem X7_scanner_visits_every_position cfg text :
  map m_start (finditer (relationship_pattern cfg) text)
  = List.filter (matches_at (relationship_pattern cfg) text)
      (List.seq 0 (S (String.length text)))
  /\ Forall (fun m => m_len m = 0) (finditer (relationship_pattern cfg) text).
Proof.
  unfold finditer, relationship_pattern.
  destruct (finditer_from_ahead
              (Group "whole_relationship"
                 (seq [node1_pattern cfg; arrow_pattern cfg; node2_pattern cfg]))
              text 0) as [Hs Hl].
  split; [ | exact Hl].
  rewrite Hs. apply List.filter_ext. intros p. now rewrite Nat.sub_0_r.
Qed.

(** ** When the query comes back as it was *)

Lemma fix_loop_unchanged sch :
  forall rels text,
    Forall (fun rel =>
              exists v, find_relationship_in_schema rel sch = Ok v
                        /\ schema_match v <> Some false
                        /\ is_correct v <> Some false) rels ->
    fix_loop text rels sch = Ok text.
Proof.
  induction rels as [ | rel rels IH]; intros text Hall; [reflexivity | ].
  inversion Hall as [ | x xs (v & Hv & Hs & Hc) Hrest]; subst.
  cbn [fix_loop]. rewrite Hv. cbn [rbind].
  rewrite (bool_decide_eq_false_2 _ Hs), (bool_decide_eq_false_2 _ Hc).
  now apply IH.
Qed.

(** X8. When no occurrence of the query receives the verdict
    [schema_match = False] or [is_correct = False], the query is returned
    character for character. *)
Theorem X8_nothing_to_correct text schema_text rels :
  detect_relationships text (process_schema schema_text) PATTERN_CONFIG = Ok rels ->
  Forall (fun rel =>
            exists v,
              find_relationship_in_schema rel (process_schema schema_text) = Ok v
              /\ schema_match v <> Some false
              /\ is_correct v <> Some false) rels ->
  correct text schema_text = Ok text.
Proof.
  intros Hdet Hall. unfold correct, fix_cypher_relationship_directions.
  rewrite Hdet. cbn [rbind]. now apply fix_loop_unchanged.
Qed.

Lemma X8_witness :
  correct "MATCH (p:Person)-[:WORKS_AT]->(o:Organization)<-[:WORKS_AT]-(q:Person)"
          "(Person, KNOWS, Person), (Person, WORKS_AT, Organization)"
  = Ok "MATCH (p:Person)-[:WORKS_AT]->(o:Organization)<-[:WORKS_AT]-(q:Person)".
Proof.
  eapply X8_nothing_to_correct.
  - vm_compute. reflexivity.
  - repeat constructor;
      (eexists; split; [vm_compute; reflexivity | split; discriminate]).
Defined.

(** ** What the empty result means *)

Lemma append_not_empty (a : string) c (b : string) :
  (a ++ String c b)%string <> EmptyString.
Proof. destruct a; discriminate. Qed.

Lemma append_not_empty_l (a b : string) :
  a <> EmptyString -> (a ++ b)%string <> EmptyString.
Proof. destruct a; [congruence | discriminate]. Qed.

Lemma replace_not_empty (s old new : string) :
  s <> EmptyString -> old = EmptyString \/ new <> EmptyString ->
  Py.replace s old new <> EmptyString.
Proof.
  intros Hs H. destruct s as [ | c s]; [congruence | ].
  unfold Py.replace. destruct old as [ | d old'].
  - simpl. apply append_not_empty.
  - destruct H as [H | H]; [discriminate | ].
    cbn [Py.replace_from].
    destruct (String.prefix (String d old') (String c s));
      [now apply append_not_empty_l | discriminate].
Qed.

Lemma switch_direction_not_empty text rel out :
  text <> EmptyString ->
  switch_direction text rel = Ok out -> out <> EmptyString.
Proof.
  intros Ht. unfold switch_direction, group_str.
  destruct (group (object rel) "whole_relationship") as [w | ];
    [ | destruct (is_str (direction rel) ">");
        [discriminate | destruct (is_str (direction rel) "<"); discriminate]].
  assert (Hr : forall new,
             (w <> EmptyString -> new <> EmptyString) ->
             Ok (Py.replace text w new) = Ok out -> out <> EmptyString).
  { intros new Hnew E. inversion E. apply replace_not_empty; [exact Ht | ].
    destruct w; [now left | right; apply Hnew; discriminate]. }
  destruct (is_str (direction rel) ">"); cbn [rbind].
  - apply Hr. intros Hw.
    apply replace_not_empty; [ | right; discriminate].
    apply replace_not_empty; [exact Hw | right; discriminate].
  - destruct (is_str (direction rel) "<"); cbn [rbind]; [ | discriminate].
    apply Hr. intros Hw.
    apply replace_not_empty; [ | right; discriminate].
    apply replace_not_empty; [exact Hw | right; discriminate].
Qed.

Lemma fix_loop_empty sch :
  forall rels text,
    text <> EmptyString ->
    fix_loop text rels sch = Ok EmptyString ->
    exists pre rel post v,
      rels = pre ++ rel :: post
      /\ find_relationship_in_schema rel sch = Ok v
      /\ schema_match v = Some false.
Proof.
  induction rels as [ | rel rels IH]; intros text Ht H.
  - simpl in H. congruence.
  - cbn [fix_loop] in H.
    destruct (find_relationship_in_schema rel sch) as [v | e] eqn:Hv;
      [ | discriminate].
    cbn [rbind] in H.
    destruct (bool_decide (schema_match v = Some false)) eqn:Es.
    + apply bool_decide_eq_true_1 in Es.
      exists [], rel, rels, v. auto.
    + assert (Hnext : forall text', text' <> EmptyString ->
                fix_loop text' rels sch = Ok EmptyString ->
                exists pre rel0 post v0,
                  rel :: rels = pre ++ rel0 :: post
                  /\ find_relationship_in_schema rel0 sch = Ok v0
                  /\ schema_match v0 = Some false).
      { intros text' Ht' H'.
        destruct (IH text' Ht' H') as (pre & r & post & v0 & -> & Hr & Hs).
        exists (rel :: pre), r, post, v0. auto. }
      destruct (bool_decide (is_correct v = Some false)).
      * destruct (switch_direction text v) as [text' | e] eqn:Esw;
          [ | discriminate].
        cbn [rbind] in H.
        apply (Hnext text'); [ | exact H].
        eapply switch_direction_not_empty; eassumption.
      * now apply (Hnext text).
Qed.

(** X9. The empty string is an unambiguous signal: for a query that is
    not empty itself, the result is empty only when some occurrence
    received the verdict [schema_match = False]. *)
Theorem X9_empty_result_means_rejection text schema_text :
  text <> EmptyString ->
  correct text schema_text = Ok EmptyString ->
  exists rels pre rel post v,
    detect_relationships text (process_schema schema_text) PATTERN_CONFIG = Ok rels
    /\ rels = pre ++ rel :: post
    /\ find_relationship_in_schema rel (process_schema schema_text) = Ok v
    /\ schema_match v = Some false.
Proof.
  intros Ht. unfold correct, fix_cypher_relationship_directions.
  destruct (detect_relationships text (process_schema schema_text) PATTERN_CONFIG)
    as [rels | e]; [ | discriminate].
  cbn [rbind]. intros H.
  destruct (fix_loop_empty _ _ _ Ht H) as (pre & rel & post & v & H1 & H2 & H3).
  exists rels, pre, rel, post, v. auto.
Qed.

Lemma X9_witness :
  exists rels pre rel post v,
    detect_relationships "MATCH (p:Person)-[:OWNS]->(c:Car)"
      (process_schema "(Person, KNOWS, Person)") PATTERN_CONFIG = Ok rels
    /\ rels = pre ++ rel :: post
    /\ find_relationship_in_schema rel (process_schema "(Person, KNOWS, Person)")
       = Ok v
    /\ schema_match v = Some false.
Proof.
  apply X9_empty_result_means_rejection; [discriminate | ].
  vm_compute. reflexivity.
Defined.

(** ** A matched text that the query no longer has *)

(** X10. The corrector looks for the text the scanner matched in the
    query as it is now: when an earlier correction has left no copy of
    it, the step for a directed occurrence returns the query as it is and
    raises nothing. *)
Theorem X10_corrector_without_a_copy text rel old :
  group (object rel) "whole_relationship" = Some old ->
  direction rel = Some ">" \/ direction rel = Some "<" ->
  Py.contains old text = false ->
  switch_direction text rel = Ok text.
Proof.
  intros Hw Hd Hc. unfold switch_direction, group_str. rewrite Hw.
  destruct Hd as [-> | ->].
  - change (is_str (Some ">") ">") with true. cbv iota. cbn [rbind].
    now rewrite replace_absent.
  - change (is_str (Some "<") ">") with false.
    change (is_str (Some "<") "<") with true. cbv iota. cbn [rbind].
    now rewrite replace_absent.
Qed.

Lemma X10_witness :
  exists rel,
    detect_relationships "MATCH (a:A)-[:R]->(b:B)" [] PATTERN_CONFIG = Ok [rel]
    /\ switch_direction "MATCH (a:A)<-[:R]-(b:B)" rel
       = Ok "MATCH (a:A)<-[:R]-(b:B)".
Proof.
  eexists. split; [vm_compute; reflexivity | ].
  eapply X10_corrector_without_a_copy.
  - vm_compute. reflexivity.
  - left. reflexivity.
  - vm_compute. reflexivity.
Defined.

(** ** Turning an arrow round and back *)

Lemma has_char_drop x :
  forall (s : string) i, has_char x s = false -> has_char x (Py.drop i s) = false.
Proof.
  induction s as [ | c s IH]; intros i H; [now destruct i | ].
  destruct i as [ | i]; [exact H | ]. cbn [Py.drop]. apply IH.
  simpl in H. now apply orb_false_iff in H as [_ H].
Qed.

Lemma drop_append (t : string) :
  forall (s : string) i,
    i < String.length s ->
    Py.drop i (s ++ t) = (Py.drop i s ++ t)%string
    /\ Py.drop i s <> EmptyString.
Proof.
  induction s as [ | c s IH]; intros i Hi; [simpl in Hi; lia | ].
  destruct i as [ | i]; [split; [reflexivity | discriminate] | ].
  change (String c s ++ t)%string with (String c (s ++ t)). cbn [Py.drop].
  apply IH. simpl in Hi. lia.
Qed.

(** A text that starts with [a], a character [d] and the character [x],
    [a] being free of [x] and [d] another character, has no copy that
    starts inside a non-empty stretch free of [x] put before it. *)
Lemma no_copy_inside x d (r r' : string) :
  d <> x ->
  forall a p : string,
    has_char x a = false -> has_char x p = false -> p <> EmptyString ->
    String.prefix (a ++ String d (String x r))
                  (p ++ a ++ String d (String x r')) = false.
Proof.
  intros Hd. induction a as [ | c a IH]; intros p Ha Hp Hne.
  - destruct p as [ | e p]; [congruence | ].
    simpl in Hp. apply orb_false_iff in Hp as [He Hp].
    cbn [String.append String.prefix].
    destruct (ascii_dec d e) as [_ | _]; [ | reflexivity].
    destruct p as [ | e' p]; cbn [String.append String.prefix].
    + destruct (ascii_dec x d) as [E | _]; [congruence | reflexivity].
    + simpl in Hp. apply orb_false_iff in Hp as [He' _].
      apply Ascii.eqb_neq in He'.
      destruct (ascii_dec x e') as [E | _]; [congruence | reflexivity].
  - destruct p as [ | e p]; [congruence | ].
    simpl in Ha. apply orb_false_iff in Ha as [Hc Ha].
    simpl in Hp. apply orb_false_iff in Hp as [He Hp].
    change (String c a ++ String d (String x r))%string
      with (String c (a ++ String d (String x r))).
    change (String e p ++ String c a ++ String d (String x r'))%string
      with (String e (p ++ String c (a ++ String d (String x r')))).
    cbn [String.prefix].
    destruct (ascii_dec c e) as [_ | _]; [ | reflexivity].
    replace (p ++ String c (a ++ String d (String x r')))%string
      with ((p ++ String c EmptyString) ++ a ++ String d (String x r'))%string
      by (rewrite append_assoc; reflexivity).
    apply IH; [exact Ha | | apply append_not_empty].
    rewrite has_char_append, Hp. simpl. now rewrite Hc.
Qed.

Lemma contains_has_char x (old : string) :
  has_char x old = true ->
  forall s : string, has_char x s = false -> Py.contains old s = false.
Proof.
  intros Hold.
  assert (Hp : forall (o s : string),
             has_char x o = true -> has_char x s = false ->
             String.prefix o s = false).
  { induction o as [ | c o IH]; intros s Ho Hs; [discriminate | ].
    destruct s as [ | e s]; [reflexivity | ]. cbn [String.prefix].
    destruct (ascii_dec c e) as [-> | _]; [ | reflexivity].
    simpl in Ho, Hs. apply orb_false_iff in Hs as [He Hs].
    rewrite He in Ho. simpl in Ho. now apply IH. }
  induction s as [ | c s IH]; intros Hs; cbn [Py.contains].
  - rewrite (Hp old EmptyString Hold Hs). reflexivity.
  - rewrite (Hp old (String c s) Hold Hs). simpl.
    apply IH. simpl in Hs. now apply orb_false_iff in Hs as [_ Hs].
Qed.

(** One copy of [a d x r] between two stretches free of [x]. *)
Lemma replace_single_copy x d (a r pre post new : string) :
  d <> x ->
  has_char x a = false -> has_char x pre = false -> has_char x post = false ->
  Py.replace (pre ++ (a ++ String d (String x r)) ++ post)
             (a ++ String d (String x r)) new
  = (pre ++ new ++ post)%string.
Proof.
  intros Hd Ha Hpre Hpost.
  assert (Hx : has_char x (a ++ String d (String x r)) = true).
  { rewrite has_char_append. simpl. rewrite Ascii.eqb_refl.
    now rewrite !orb_true_r. }
  rewrite replace_first_copy.
  - rewrite (replace_absent post); [reflexivity | ].
    now apply (contains_has_char x).
  - apply append_not_empty.
  - intros i Hi. destruct (drop_append
      ((a ++ String d (String x r)) ++ post) pre i Hi) as [-> Hne].
    rewrite append_assoc.
    change (String d (String x r) ++ post)%string
      with (String d (String x (r ++ post))).
    apply no_copy_inside; [exact Hd | exact Ha | | exact Hne].
    now apply has_char_drop.
Qed.

(** X11. Turning a right arrow round and turning the result round again
    gives the query back: for an occurrence [a)-body->(b] whose nodes and
    body have no hyphen of their own, in a query that has no hyphen
    before or behind it. *)
Theorem X11_flip_round_trip rel rel' pre post a body b :
  hyphen_free pre -> hyphen_free post ->
  hyphen_free a -> hyphen_free body -> hyphen_free b ->
  first_char body <> Some ">"%char -> first_char body <> Some "("%char ->
  last_char body <> Some ")"%char -> last_char body <> Some "<"%char ->
  group (object rel) "whole_relationship"
  = Some (a ++ ")-" ++ body ++ "->(" ++ b)%string ->
  direction rel = Some ">" ->
  group (object rel') "whole_relationship"
  = Some (a ++ ")<-" ++ body ++ "-(" ++ b)%string ->
  direction rel' = Some "<" ->
  switch_direction (pre ++ (a ++ ")-" ++ body ++ "->(" ++ b) ++ post) rel
  = Ok (pre ++ (a ++ ")<-" ++ body ++ "-(" ++ b) ++ post)%string
  /\ switch_direction (pre ++ (a ++ ")<-" ++ body ++ "-(" ++ b) ++ post) rel'
     = Ok (pre ++ (a ++ ")-" ++ body ++ "->(" ++ b) ++ post)%string.
Proof.
  intros Hpre Hpost Ha Hb Hb2 Hf1 Hf2 Hl1 Hl2 Hw Hd Hw' Hd'.
  assert (Hb2' : hyphen_free ("(" ++ b)) by exact Hb2.
  assert (Ha' : hyphen_free (a ++ ")")).
  { unfold hyphen_free. rewrite has_char_append. unfold hyphen_free in Ha.
    now rewrite Ha. }
  pose proof (turn_right_arrow a body ("(" ++ b) Ha Hb Hb2' Hf1 Hl1) as Tr.
  change (a ++ ")-" ++ body ++ "->" ++ "(" ++ b)%string
    with (a ++ ")-" ++ body ++ "->(" ++ b)%string in Tr.
  change (a ++ ")<-" ++ body ++ "-" ++ "(" ++ b)%string
    with (a ++ ")<-" ++ body ++ "-(" ++ b)%string in Tr.
  pose proof (turn_left_arrow (a ++ ")") body b Ha' Hb Hb2 Hf2 Hl2) as Tl.
  assert (El : ((a ++ ")") ++ "<-" ++ body ++ "-(" ++ b
                = a ++ ")<-" ++ body ++ "-(" ++ b)%string)
    by (rewrite append_assoc; reflexivity).
  assert (Er : ((a ++ ")") ++ "-" ++ body ++ "->(" ++ b
                = a ++ ")-" ++ body ++ "->(" ++ b)%string)
    by (rewrite append_assoc; reflexivity).
  rewrite El, Er in Tl.
  split.
  - unfold switch_direction, group_str. rewrite Hd, Hw.
    change (is_str (Some ">") ">") with true. cbv iota. cbn [rbind].
    rewrite Tr. f_equal.
    change (a ++ ")-" ++ body ++ "->(" ++ b)%string
      with (a ++ String ")" (String "-" (body ++ "->(" ++ b)))%string.
    apply replace_single_copy; (assumption || discriminate).
  - unfold switch_direction, group_str. rewrite Hd', Hw'.
    change (is_str (Some "<") ">") with false.
    change (is_str (Some "<") "<") with true. cbv iota. cbn [rbind].
    rewrite Tl. f_equal.
    rewrite <- El.
    change ((a ++ ")") ++ "<-" ++ body ++ "-(" ++ b)%string
      with ((a ++ ")") ++ String "<" (String "-" (body ++ "-(" ++ b)))%string.
    apply replace_single_copy; (assumption || discriminate).
Qed.

Lemma X11_witness :
  exists rel rel',
    detect_relationships "MATCH (a:A)-[:R]->(b:B) RETURN a" [] PATTERN_CONFIG
    = Ok [rel]
    /\ detect_relationships "MATCH (a:A)<-[:R]-(b:B) RETURN a" [] PATTERN_CONFIG
       = Ok [rel']
    /\ switch_direction "MATCH (a:A)-[:R]->(b:B) RETURN a" rel
       = Ok "MATCH (a:A)<-[:R]-(b:B) RETURN a"
    /\ switch_direction "MATCH (a:A)<-[:R]-(b:B) RETURN a" rel'
       = Ok "MATCH (a:A)-[:R]->(b:B) RETURN a".
Proof.
  eexists _, _. split; [vm_compute; reflexivity | ].
  split; [vm_compute; reflexivity | ].
  apply (X11_flip_round_trip _ _ "MATCH " " RETURN a" "(a:A" "[:R]" "b:B)");
    try reflexivity; discriminate.
Defined.

(** ** The last candidate decides whether the occurrence matched *)

Lemma try_labels_last_no_match sch c :
  forall l1 rel,
    is_correct rel <> Some true ->
    passed_over sch rel l1 ->
    candidate_outcome rel sch c NoMatch ->
    exists v,
      try_labels (l1 ++ [c]) rel sch = Ok v
      /\ schema_match v = Some false.
Proof.
  induction l1 as [ | l l1 IH]; intros rel Hc Hl1 Hno; simpl app.
  - rewrite (try_labels_step_other _ _ _ _ _ Hno); [ | discriminate | exact Hc].
    simpl. eexists. split; reflexivity.
  - destruct (passed_over_cons _ _ _ _ Hl1) as [(o & Ho & Hcand) Hrest].
    rewrite (try_labels_step_other _ _ _ _ _ Hcand Ho Hc).
    apply IH; [auto with frame | apply Hrest | carry_over].
Qed.

(** X12. When no candidate label of an occurrence is correct, the last
    candidate alone decides whether the occurrence matched: if it matches
    nothing the verdict is [schema_match = False] and the query is
    rejected, even when an earlier candidate only needed a flip. *)
Theorem X12_last_candidate_decides rel sch l1 c text rest :
  is_correct rel = None ->
  multi_labels rel = l1 ++ [c] ->
  passed_over sch rel l1 ->
  candidate_outcome rel sch c NoMatch ->
  (exists v,
      find_relationship_in_schema rel sch = Ok v
      /\ schema_match v = Some false)
  /\ fix_loop text (rel :: rest) sch = Ok EmptyString.
Proof.
  intros Hfresh Hl Hl1 Hno.
  assert (Hc : is_correct rel <> Some true) by (rewrite Hfresh; discriminate).
  destruct (try_labels_last_no_match sch c l1 rel Hc Hl1 Hno) as (v & Hv & Hs).
  unfold find_relationship_in_schema. cbn [fix_loop].
  unfold find_relationship_in_schema. rewrite Hl, Hv. cbn [rbind].
  split; [eauto | ].
  now rewrite bool_decide_eq_true_2.
Qed.

(** The candidate [T1] is in the schema the other way round, [T2] is not
    in it at all: the query is rejected. *)
Lemma X12_witness :
  exists rel,
    detect_relationships "MATCH (a:A)-[:T1|T2]->(b:B)"
      (process_schema "(B, T1, A)") PATTERN_CONFIG = Ok [rel]
    /\ candidate_outcome rel (process_schema "(B, T1, A)") "T1" NeedsFlip
    /\ (exists v,
          find_relationship_in_schema rel (process_schema "(B, T1, A)") = Ok v
          /\ schema_match v = Some false)
    /\ fix_loop "MATCH (a:A)-[:T1|T2]->(b:B)" [rel] (process_schema "(B, T1, A)")
       = Ok EmptyString.
Proof.
  eexists. split; [vm_compute; reflexivity | ].
  split; [vm_compute; reflexivity | ].
  apply (X12_last_candidate_decides _ _ ["T1"] "T2").
  - reflexivity.
  - reflexivity.
  - constructor; [ | constructor]. left. vm_compute. reflexivity.
  - vm_compute. reflexivity.
Defined.

(** ** From occurrences to relationships *)

Lemma detect_relationship_object text sch cfg obj rel :
  detect_relationship text sch cfg obj = Ok rel -> object rel = obj.
Proof.
  intros H. unfold detect_relationship in H.
  apply rbind_Ok in H. destruct H as ([n1 n2] & _ & H).
  apply rbind_Ok in H. destruct H as (r & Hr & H).
  unfold detect_relationship_characteristics in Hr.
  apply rbind_Ok in Hr. destruct Hr as (labels & _ & Hr).
  apply rbind_Ok in Hr. destruct Hr as (vl & _ & Hr).
  inversion Hr; subst r; clear Hr. simpl in H.
  destruct (Py.startswith _ _).
  - unfold transform_negated_to_multi_label in H.
    apply rbind_Ok in H. destruct H as (ls & _ & H).
    inversion H; subst rel. reflexivity.
  - inversion H; subst rel. reflexivity.
Qed.

(** X13. Detection keeps the occurrences of the scanner one for one and in
    order: the relationships it returns carry exactly the match objects
    the scanner found, none dropped, none added, none reordered. *)
Theorem X13_one_relationship_per_occurrence text sch cfg rels :
  detect_relationships text sch cfg = Ok rels ->
  map object rels = finditer (relationship_pattern cfg) text.
Proof.
  unfold detect_relationships. intros H. apply rmapM_Ok in H.
  induction H as [ | obj rel objs rels' Hrel _ IH]; [reflexivity | ].
  cbn [map]. rewrite IH.
  now rewrite (detect_relationship_object _ _ _ _ _ Hrel).
Qed.

Lemma X13_witness :
  exists rels,
    detect_relationships "MATCH (a:A)-[:R]->(b:B)<-[:S]-(c:C)" [] PATTERN_CONFIG
    = Ok rels
    /\ length rels = 2
    /\ map object rels
       = finditer (relationship_pattern PATTERN_CONFIG)
           "MATCH (a:A)-[:R]->(b:B)<-[:S]-(c:C)".
Proof.
  eexists. split; [vm_compute; reflexivity | ].
  split; [reflexivity | ].
  apply (X13_one_relationship_per_occurrence _ []).
  vm_compute. reflexivity.
Defined.

(** ** The first label of a node *)

Lemma lstrip_colon (a rest : string) :
  a <> EmptyString -> has_char ":" a = false ->
  Py.lstrip ":" (":" ++ a ++ rest) = (a ++ rest)%string.
Proof.
  intros Hne Ha. change (":" ++ a ++ rest)%string with (String ":" (a ++ rest)).
  cbn [Py.lstrip]. change (Py.mem ":" ":") with true. cbv iota.
  apply lstrip_keep. intros c Hc.
  destruct a as [ | d a]; [congruence | ]. simpl in Hc. inversion Hc; subst.
  simpl in Ha. apply orb_false_iff in Ha as [Ha _].
  simpl. now rewrite Ha.
Qed.

(** X14. Only the first label of a node counts, and back quotes are not
    part of it: [:a], [:a:rest] and the quoted form of [:a] all give [a],
    for a name [a] without a colon or a back quote. *)
Theorem X14_first_label a rest :
  a <> EmptyString -> has_char ":" a = false -> has_char "`" a = false ->
  first_label (":" ++ a) = a
  /\ first_label (":" ++ a ++ ":" ++ rest) = a
  /\ first_label (":`" ++ a ++ "`") = a.
Proof.
  intros Hne Hc Hq. unfold first_label. repeat split.
  - rewrite <- (append_nil_r a) at 1. rewrite lstrip_colon by assumption.
    rewrite append_nil_r, replace_char_filter, filter_no_char by exact Hq.
    now rewrite split_one.
  - rewrite lstrip_colon by assumption.
    rewrite replace_char_filter, filter_append, filter_no_char by exact Hq.
    change (Py.filter (fun c => negb (Ascii.eqb c "`")) (":" ++ rest))
      with (":" ++ Py.filter (fun c => negb (Ascii.eqb c "`")) rest)%string.
    now rewrite split_cons.
  - change (":`" ++ a ++ "`")%string with (String ":" ("`" ++ a ++ "`")).
    cbn [Py.lstrip]. change (Py.mem ":" ":") with true. cbv iota.
    rewrite lstrip_keep by (intros c E; inversion E; reflexivity).
    rewrite replace_char_filter.
    change ("`" ++ a ++ "`")%string with (String "`" (a ++ "`")).
    cbn [Py.filter]. change (negb (Ascii.eqb "`" "`")) with false. cbv iota.
    rewrite filter_append, filter_no_char by exact Hq.
    change (Py.filter (fun c => negb (Ascii.eqb c "`")) "`") with EmptyString.
    rewrite append_nil_r. now rewrite split_one.
Qed.

Lemma X14_witness :
  first_label ":Person" = "Person"
  /\ first_label (":Person" ++ ":" ++ "Employee") = "Person"
  /\ first_label ":`Person`" = "Person".
Proof.
  apply (X14_first_label "Person" "Employee"); [discriminate | reflexivity..].
Defined.

(** ** The candidate labels of an occurrence *)

Lemma has_char_filter p x :
  forall s : string, has_char x (Py.filter p s) = true -> p x = true.
Proof.
  induction s as [ | c s IH]; simpl; [discriminate | ].
  destruct (p c) eqn:E; [ | exact IH]. simpl.
  destruct (Ascii.eqb c x) eqn:Ex; [ | exact IH].
  apply Ascii.eqb_eq in Ex. now subst.
Qed.

Lemma contains_char x :
  forall s : string, Py.contains (String x EmptyString) s = has_char x s.
Proof.
  induction s as [ | c s IH]; [reflexivity | ].
  cbn [Py.contains has_char]. rewrite IH. f_equal.
  simpl. destruct (ascii_dec x c) as [-> | Hne].
  - rewrite Ascii.eqb_refl. now destruct s.
  - symmetry. apply Ascii.eqb_neq. congruence.
Qed.

(** X15. An occurrence that is not negated always has a candidate label,
    so the matcher runs on it at least once; no candidate contains white
    space, a back quote or a colon; and without a pipe in the label
    expression the only candidate is the cleaned expression itself, the
    empty label for a relationship written without a type. *)
Theorem X15_candidate_labels obj n1 n2 rel :
  detect_relationship_characteristics obj n1 n2 = Ok rel ->
  multi_labels rel <> []
  /\ Forall (fun l => forall c, has_char c l = true ->
                        space_char c = false /\ c <> "`"%char /\ c <> ":"%char)
            (multi_labels rel)
  /\ (is_multi_label rel = false ->
      exists labels,
        group obj "rel_labels" = Some labels
        /\ multi_labels rel = [clean_label labels]).
Proof.
  unfold detect_relationship_characteristics, group_str. intros H.
  destruct (group obj "rel_labels") as [labels | ]; [ | discriminate].
  cbn [rbind] in H.
  apply rbind_Ok in H. destruct H as (vl & _ & H).
  inversion H; subst rel; clear H. cbn [multi_labels is_multi_label].
  split; [ | split].
  - unfold Py.split.
    pose proof (split_from_not_nil "|" labels 0 EmptyString) as Hne.
    destruct (Py.split_from "|" 0 EmptyString labels); [congruence | discriminate].
  - apply List.Forall_forall. intros l Hin.
    apply in_map_iff in Hin. destruct Hin as (raw & <- & _).
    intros c Hc. unfold clean_label in Hc. apply has_char_filter in Hc.
    apply negb_true_iff, orb_false_iff in Hc. destruct Hc as [Hs Hm].
    split; [exact Hs | ].
    simpl in Hm. apply orb_false_iff in Hm as [Hq Hm].
    apply orb_false_iff in Hm as [Hcol _].
    split; now apply Ascii.eqb_neq.
  - intros Hp. exists labels. split; [reflexivity | ].
    rewrite contains_char in Hp. now rewrite split_one.
Qed.

Lemma X15_witness :
  exists obj rel,
    finditer (relationship_pattern PATTERN_CONFIG) "MATCH (a:A)-[r:`HAS_PART`]->(b:B)"
    = [obj]
    /\ detect_relationship_characteristics obj
         (mkNode (Some "a") "A") (mkNode (Some "b") "B") = Ok rel
    /\ multi_labels rel <> []
    /\ Forall (fun l => forall c, has_char c l = true ->
                          space_char c = false /\ c <> "`"%char /\ c <> ":"%char)
              (multi_labels rel)
    /\ (is_multi_label rel = false ->
        exists labels,
          group obj "rel_labels" = Some labels
          /\ multi_labels rel = [clean_label labels]).
Proof.
  eexists _, _. split; [vm_compute; reflexivity | ].
  split; [vm_compute; reflexivity | ].
  apply (X15_candidate_labels _ (mkNode (Some "a") "A") (mkNode (Some "b") "B")).
  vm_compute. reflexivity.
Defined.

(** ** What the matcher leaves and what it sets *)




(** ** A node that carries its own label *)

(** X17. A node written with a label keeps it: the labels declared
    elsewhere in the query for the same variable are not consulted, and
    the variable name is the one the scanner captured. *)
Theorem X17_inline_label_wins obj text cfg n1 n2 l1 l2 :
  detect_node_labels obj text cfg = Ok (n1, n2) ->
  group obj "node1_labels" = Some l1 ->
  group obj "node2_labels" = Some l2 ->
  (first_label l1 <> EmptyString -> label1 n1 = first_label l1)
  /\ (first_label l2 <> EmptyString -> label1 n2 = first_label l2)
  /\ var_name n1 = group obj "node1_var_name"
  /\ var_name n2 = group obj "node2_var_name".
Proof.
  unfold detect_node_labels, group_str. intros H H1 H2.
  rewrite H1, H2 in H. cbn [rbind] in H.
  apply rbind_Ok in H. destruct H as (m & _ & H). cbn [label1 var_name] in H.
  assert (E1 : forall s : string, s <> EmptyString -> String.eqb s EmptyString = false)
    by (intros s Hs; now apply String.eqb_neq).
  inversion H; subst n1 n2; clear H.
  repeat split.
  - intros Hne. now rewrite (E1 _ Hne).
  - intros Hne. now rewrite (E1 _ Hne).
  - now destruct (String.eqb (first_label l1) EmptyString).
  - now destruct (String.eqb (first_label l2) EmptyString).
Qed.

Lemma X17_witness :
  exists obj n1 n2,
    finditer (relationship_pattern PATTERN_CONFIG)
      "MATCH (a:B)-[:R]->(c), (a:C)" = [obj]
    /\ detect_node_labels obj "MATCH (a:B)-[:R]->(c), (a:C)" PATTERN_CONFIG
       = Ok (n1, n2)
    /\ label1 n1 = "B"
    /\ (first_label ":B" <> EmptyString -> label1 n1 = first_label ":B")
    /\ (first_label EmptyString <> EmptyString -> label1 n2 = first_label EmptyString)
    /\ var_name n1 = group obj "node1_var_name"
    /\ var_name n2 = group obj "node2_var_name".
Proof.
  eexists _, _, _. split; [vm_compute; reflexivity | ].
  split; [vm_compute; reflexivity | ].
  split; [reflexivity | ].
  apply (X17_inline_label_wins _ "MATCH (a:B)-[:R]->(c), (a:C)"
           PATTERN_CONFIG _ _ ":B" EmptyString);
    vm_compute; reflexivity.
Defined.

(** ** The groups of an occurrence tile its text *)

(** A match leaves the groups it does not name as they were. *)
Lemma matches_lookup_other name r s g s' g' :
  matches r s g s' g' -> ~ In name (names r) -> lookup name g' = lookup name g.
Proof.
  induction 1 as
    [ s g | c s g | p c s g Hp
    | r1 r2 s g s1 g1 s2 g2 _ IH1 _ IH2
    | r s g s' g' _ IH | r s g | r s g
    | r s g s1 g1 s2 g2 _ IH1 _ IH2
    | r s g
    | r s g s1 g1 s2 g2 _ IH1 _ IH2
    | n r s g s' g' _ IH | r s g s' g' _ IH ];
    intros Hn; try reflexivity.
  - simpl in Hn. rewrite in_app_iff in Hn.
    rewrite IH2, IH1; [reflexivity | tauto | tauto].
  - now apply IH.
  - rewrite IH2, IH1; [reflexivity | exact Hn | exact Hn].
  - rewrite IH2, IH1; [reflexivity | exact Hn | exact Hn].
  - simpl in Hn. simpl.
    assert (E : String.eqb name n = false)
      by (apply String.eqb_neq; intros ->; tauto).
    rewrite E. apply IH. tauto.
  - now apply IH.
Qed.

Lemma three_groups_tile whole a b c (ra rb rc : regex) s g s' g' :
  matches (Ahead (Group whole (seq [Group a ra; Group b rb; Group c rc])))
          s g s' g' ->
  whole <> a -> whole <> b -> whole <> c -> a <> b -> a <> c -> b <> c ->
  ~ In a (names rb) -> ~ In a (names rc) -> ~ In b (names rc) ->
  exists w1 w2 w3 rest,
    lookup a g' = Some w1 /\ lookup b g' = Some w2 /\ lookup c g' = Some w3
    /\ lookup whole g' = Some (w1 ++ w2 ++ w3)%string
    /\ s = ((w1 ++ w2 ++ w3) ++ rest)%string.
Proof.
  intros H Hwa Hwb Hwc Hab Hac Hbc Harb Harc Hbrc.
  inversion H as [ | | | | | | | | | | | r0 s0 g0 s1 g1 Hg]; subst; clear H.
  inversion Hg as [ | | | | | | | | | | n0 r0 s0 g0 s2 g2 Hs | ]; subst; clear Hg.
  cbn [seq fold_right] in Hs.
  inversion Hs as [ | | | r1 r2 s0 g0 sa ga s3 g3 Ha Hs1 | | | | | | | | ];
    subst; clear Hs.
  inversion Hs1 as [ | | | r1 r2 s0 g0 sb gb s3 g3 Hb Hs2 | | | | | | | | ];
    subst; clear Hs1.
  inversion Hs2 as [ | | | r1 r2 s0 g0 sc gc s3 g3 Hc He | | | | | | | | ];
    subst; clear Hs2.
  inversion He; subst; clear He.
  inversion Ha as [ | | | | | | | | | | n0 r0 s0 g0 s3 ga0 Ha' | ]; subst; clear Ha.
  inversion Hb as [ | | | | | | | | | | n0 r0 s0 g0 s3 gb0 Hb' | ]; subst; clear Hb.
  inversion Hc as [ | | | | | | | | | | n0 r0 s0 g0 s3 gc0 Hc' | ]; subst; clear Hc.
  destruct (matches_suffix _ _ _ _ _ Ha') as [w1 E1].
  destruct (matches_suffix _ _ _ _ _ Hb') as [w2 E2].
  destruct (matches_suffix _ _ _ _ _ Hc') as [w3 E3].
  pose proof (matches_lookup_other a _ _ _ _ _ Hb' Harb) as La.
  pose proof (matches_lookup_other a _ _ _ _ _ Hc' Harc) as La'.
  pose proof (matches_lookup_other b _ _ _ _ _ Hc' Hbrc) as Lb.
  assert (Eq : forall x y : string, x <> y -> String.eqb x y = false)
    by (intros x y Hxy; now apply String.eqb_neq).
  match type of Hc' with
  | matches _ _ _ ?sc _ =>
      match type of E1 with
      | ?s0 = _ =>
          assert (Es : s0 = ((w1 ++ w2 ++ w3) ++ sc)%string)
            by (rewrite E1, E2, E3, !append_assoc; reflexivity);
          exists w1, w2, w3, sc
      end
  end.
  pose proof (Eq a b Hab) as Fab. pose proof (Eq a c Hac) as Fac.
  pose proof (Eq b c Hbc) as Fbc.
  assert (Faw : String.eqb a whole = false) by (apply Eq; congruence).
  assert (Fbw : String.eqb b whole = false) by (apply Eq; congruence).
  assert (Fcw : String.eqb c whole = false) by (apply Eq; congruence).
  cbn [lookup] in La, La', Lb.
  rewrite String.eqb_refl in La, Lb. rewrite Fab in La'.
  cbn [lookup].
  rewrite Faw, Fbw, Fcw, Fac, Fbc, !String.eqb_refl.
  repeat split.
  - rewrite La', La. f_equal. rewrite E1. apply take_app_length.
  - rewrite Lb. f_equal. rewrite E2. apply take_app_length.
  - f_equal. rewrite E3. apply take_app_length.
  - f_equal. rewrite Es. apply take_app_length.
  - exact Es.
Qed.

(** X18. In every occurrence the scanner yields, the text matched as a
    whole is the text of the first node, of the arrow and of the second
    node one after the other, and it stands in the query at the position
    of the occurrence. *)
Theorem X18_occurrence_is_node_arrow_node text obj :
  In obj (finditer (relationship_pattern PATTERN_CONFIG) text) ->
  exists n1 arrow n2 rest,
    group obj "node1" = Some n1
    /\ group obj "rel" = Some arrow
    /\ group obj "node2" = Some n2
    /\ group obj "whole_relationship" = Some (n1 ++ arrow ++ n2)%string
    /\ Py.drop (m_start obj) text = ((n1 ++ arrow ++ n2) ++ rest)%string.
Proof.
  intros H. apply finditer_match in H. destruct H as (rest & s' & Hm & _).
  unfold group.
  apply (three_groups_tile "whole_relationship" "node1" "rel" "node2"
           _ _ _ _ _ _ _ Hm); try discriminate;
    simpl; intuition discriminate.
Qed.

Lemma X18_witness :
  exists obj n1 arrow n2 rest,
    finditer (relationship_pattern PATTERN_CONFIG)
      "MATCH (a:A)-[r:R*1..2]->(b:B) RETURN a" = [obj]
    /\ group obj "node1" = Some n1
    /\ group obj "rel" = Some arrow
    /\ group obj "node2" = Some n2
    /\ group obj "whole_relationship" = Some (n1 ++ arrow ++ n2)%string
    /\ Py.drop (m_start obj) "MATCH (a:A)-[r:R*1..2]->(b:B) RETURN a"
       = ((n1 ++ arrow ++ n2) ++ rest)%string.
Proof.
  pose (obj := hd (mkMatch 0 0 [])
                 (finditer (relationship_pattern PATTERN_CONFIG)
                    "MATCH (a:A)-[r:R*1..2]->(b:B) RETURN a")).
  destruct (X18_occurrence_is_node_arrow_node
              "MATCH (a:A)-[r:R*1..2]->(b:B) RETURN a" obj)
    as (n1 & arrow & n2 & rest & H).
  - vm_compute. left. reflexivity.
  - exists obj, n1, arrow, n2, rest. split; [vm_compute; reflexivity | exact H].
Defined.
